(** * Composite Simpson quadrature: the routine [approx] of Simpson.py

    A shallow embedding of [approx] (src/Simpson.py, and its copy with a
    renamed accumulator in src/simpson.py) together with the vectorised
    variant kept as commented code in src/simpson.py.

    Numbers.  The Python code computes on binary floating point.  The
    properties below are stated over exact arithmetic, so every Python
    number is a canonical rational [Qc]: equality is Leibniz equality, the
    field operations are exact and every definition computes.  Rounding is
    therefore outside this model; where a property of the program fails
    under rounding, module [B64] repeats lines 13-25 on binary64 numbers
    (the Standard Library's [spec_float] with round-to-nearest-even) and the
    failure is computed there.

    Effects.  [approx] calls three foreign functions ([numpy.linspace], the
    integrand [f], [scipy.integrate.quad]) and prints three lines.  Each of
    these is recorded in an event log threaded through the computation, and
    a raised Python exception ends the computation with the log as it was
    at the raise. *)

From Stdlib Require Import ZArith QArith Qcanon Qcabs.
From Stdlib Require Import List String Ascii Lia.
From Stdlib Require Import SpecFloat.
Import ListNotations.

Local Open Scope Z_scope.
Local Open Scope Qc_scope.

(** ** Python values and exceptions *)

(** The exceptions the modelled code can raise. *)
Inductive exn : Type :=
| ValueError (msg : string)
| ZeroDivisionError
| IndexError.

(** What the outside world observes of a run. *)
Inductive event : Type :=
| EvLinspace (start stop : Qc) (num : Z)   (* numpy.linspace(start, stop, num) *)
| EvCall (xs : list Qc)                    (* f(xs) *)
| EvQuad (a b : Qc)                        (* integrate.quad(f, a, b) *)
| EvPrint (line : string).                 (* print(line) *)

(** Pure code that may raise. *)
Definition outcome (A : Type) : Type := (exn + A)%type.

(** Code that may raise and that appends to the event log. *)
Definition M (A : Type) : Type := list event -> outcome A * list event.

Definition ret {A} (x : A) : M A := fun log => (inr x, log).

Definition bind {A B} (c : M A) (k : A -> M B) : M B :=
  fun log =>
    match c log with
    | (inl e, log') => (inl e, log')
    | (inr x, log') => k x log'
    end.

Definition raise {A} (e : exn) : M A := fun log => (inl e, log).

Definition emit (ev : event) : M unit := fun log => (inr tt, log ++ [ev]).

Definition lift {A} (r : outcome A) : M A := fun log => (r, log).

Definition rbind {A B} (r : outcome A) (k : A -> outcome B) : outcome B :=
  match r with
  | inl e => inl e
  | inr x => k x
  end.

Declare Scope py_scope.
Delimit Scope py_scope with py.
Notation "x <- c ;; k" := (bind c (fun x => k))
  (at level 61, c at next level, right associativity) : py_scope.
Notation "c ;; k" := (bind c (fun _ => k))
  (at level 61, right associativity) : py_scope.
Notation "x <~ c ;; k" := (rbind c (fun x => k))
  (at level 61, c at next level, right associativity) : py_scope.
Local Open Scope py_scope.

(** A Python [int] used as a number. *)
Definition Z2Qc (z : Z) : Qc := Q2Qc (inject_Z z).

(** [x / n] on Python numbers (the bounds are Python numbers, as in the
    defaults [a=0, b=1] and in the call that ends the file): true division,
    [ZeroDivisionError] on a zero divisor. *)
Definition py_div (x d : Qc) : outcome Qc :=
  if Qc_eq_dec d 0 then inl ZeroDivisionError else inr (x / d).

(** [range(n)]: empty when [n <= 0]. *)
Definition range (n : Z) : list Z := map Z.of_nat (seq 0 (Z.to_nat n)).

(** [for i in idx: s = body(i, s)], stopping at the first exception. *)
Fixpoint for_each {S} (body : Z -> S -> outcome S) (idx : list Z) (s : S)
  : outcome S :=
  match idx with
  | [] => inr s
  | i :: idx' =>
      match body i s with
      | inl e => inl e
      | inr s' => for_each body idx' s'
      end
  end.

(** [l[k]] on a sequence: a negative index counts from the end, an index
    outside the sequence raises [IndexError]. *)
Definition getitem (l : list Qc) (k : Z) : outcome Qc :=
  let len := Z.of_nat (List.length l) in
  let k' := if (k <? 0)%Z then (k + len)%Z else k in
  if ((k' <? 0) || (len <=? k'))%Z then inl IndexError
  else match nth_error l (Z.to_nat k') with
       | Some x => inr x
       | None => inl IndexError
       end.

(** ** Decimal text *)

Definition digit_char (d : Z) : ascii :=
  ascii_of_nat (48 + Z.to_nat (d mod 10)).

(** The last [k] decimal digits of [m], most significant first. *)
Fixpoint digits_fixed (k : nat) (m : Z) : string :=
  match k with
  | O => EmptyString
  | S k' =>
      (digits_fixed k' (m / 10) ++ String (digit_char m) EmptyString)%string
  end.

(** Number of decimal digits of [m >= 0] (1 for 0); [fuel] bounds the
    recursion, [log2 m] is enough. *)
Fixpoint digit_count (fuel : nat) (m : Z) : nat :=
  match fuel with
  | O => 1
  | S fuel' => if (m <? 10)%Z then 1 else S (digit_count fuel' (m / 10))
  end.

(** [str(m)] for [m >= 0]. *)
Definition nat_string (m : Z) : string :=
  digits_fixed (digit_count (Z.to_nat (Z.log2 m)) m) m.

(** [str(z)]. *)
Definition Z_string (z : Z) : string :=
  if (z <? 0)%Z then ("-" ++ nat_string (- z))%string else nat_string z.

(** Nearest integer to [q], a tie going to the even neighbour. *)
Definition round_half_even (q : Q) : Z :=
  let n := Qnum q in
  let d := Zpos (Qden q) in
  let fl := (n / d)%Z in
  match (2 * (n mod d) ?= d)%Z with
  | Lt => fl
  | Gt => (fl + 1)%Z
  | Eq => if Z.even fl then fl else (fl + 1)%Z
  end.

(** The text of [x] in fixed-point notation with [p >= 0] digits after the
    point: the sign, then [|x|] rounded to the nearest multiple of
    [10^-p]; no point is written when [p] is 0. *)
Definition fixed_text (x : Qc) (p : Z) : string :=
  let m := round_half_even (this (Qcabs x * Z2Qc (10 ^ p))) in
  let sign := match x ?= 0 with Lt => "-"%string | _ => ""%string end in
  let int_part := nat_string (m / 10 ^ p) in
  let frac_part :=
    if (p =? 0)%Z then ""%string
    else ("." ++ digits_fixed (Z.to_nat p) m)%string in
  (sign ++ int_part ++ frac_part)%string.

(** [format(x, ".{p}f")], the f-string field [{x:.{p}f}]: a negative
    precision is refused. *)
Definition format_f (x : Qc) (p : Z) : outcome string :=
  if (p <? 0)%Z then inl (ValueError "Format specifier missing precision")
  else inr (fixed_text x p).

Fixpoint spaces (k : nat) : string :=
  match k with
  | O => EmptyString
  | S k' => String " " (spaces k')
  end.

(** [format(s, "<w")]: [s] padded on the right with spaces up to width [w];
    a longer [s] is left as it is. *)
Definition ljust (s : string) (w : nat) : string :=
  (s ++ spaces (w - String.length s))%string.

(** ** numpy *)

(** [l[-1] = x] on a non-empty array. *)
Definition set_last (l : list Qc) (x : Qc) : list Qc := removelast l ++ [x].

(** [numpy.linspace(start, stop, num)] with the default [endpoint=True]:
    [arange(0, num) * step + start] with [step = (stop - start) / (num - 1)],
    the last entry then overwritten with [stop]; [num = 1] gives [[start]],
    [num = 0] the empty array, a negative [num] raises [ValueError].
    (numpy is not part of the repository; this follows its implementation,
    whose separate branch for [step == 0] gives the same exact values.) *)
Definition linspace (start stop : Qc) (num : Z) : outcome (list Qc) :=
  if (num <? 0)%Z then
    inl (ValueError ("Number of samples, " ++ Z_string num
                     ++ ", must be non-negative."))
  else
    let div := (num - 1)%Z in
    let delta := stop - start in
    let y := map Z2Qc (range num) in
    let y :=
      if (0 <? div)%Z then
        let step := delta / Z2Qc div in map (fun t => t * step) y
      else map (fun t => t * delta) y in
    let y := map (fun t => t + start) y in
    inr (if (1 <? num)%Z then set_last y stop else y).

(** [numpy.sum] of a one-dimensional array. *)
Definition np_sum (l : list Qc) : Qc := fold_left Qcplus l 0.

(** [l[start:stop:step]] for [step > 0]: negative bounds count from the end,
    bounds are clamped to the array, and the entries at
    [start, start + step, ...] below [stop] are taken. *)
Definition slice (l : list Qc) (start stop step : Z) : list Qc :=
  let len := Z.of_nat (List.length l) in
  let adj i := if (i <? 0)%Z then Z.max 0 (i + len) else Z.min i len in
  let s := adj start in
  let e := adj stop in
  let count := if (s <? e)%Z then ((e - s - 1) / step + 1)%Z else 0%Z in
  map (fun k => nth (Z.to_nat (s + k * step)) l 0) (range count).

(** A numpy ufunc: the scalar function [g] applied entry by entry. *)
Definition ufunc (g : Qc -> Qc) : list Qc -> list Qc := map g.

(** ** The foreign calls, as logged actions *)

Definition np_linspace (start stop : Qc) (num : Z) : M (list Qc) :=
  emit (EvLinspace start stop num) ;; lift (linspace start stop num).

Definition call (f : list Qc -> list Qc) (xs : list Qc) : M (list Qc) :=
  emit (EvCall xs) ;; ret (f xs).

Definition print (line : string) : M unit := emit (EvPrint line).

(** ** The routine *)

(** The loop of lines 21-24:
    [sum = 0; for i in range(n): sum += values[2*i] + 4*values[2*i+1] + values[2*i+2]]. *)
Definition simpson_loop (values : list Qc) (n : Z) : outcome Qc :=
  for_each
    (fun i sum =>
       v0 <~ getitem values (2 * i) ;;
       v1 <~ getitem values (2 * i + 1) ;;
       v2 <~ getitem values (2 * i + 2) ;;
       inr (sum + (v0 + Z2Qc 4 * v1 + v2)))
    (range n) 0.

(** The reduction of the active code (lines 16-17 and 21-25) on a given
    value sequence. *)
Definition loop_form (values : list Qc) (a b : Qc) (n_node : Z) : outcome Qc :=
  let n := ((n_node - 1) / 2)%Z in
  h <~ py_div (b - a) (Z2Qc n) ;;
  sum <~ simpson_loop values n ;;
  inr (sum * (h / Z2Qc 6)).

(** The reduction of the commented variant (src/simpson.py, lines 109-113):
    [h = (b - a) / (n_node - 1)] and
    [h / 3 * (values[0] + 4 * np.sum(values[1:-1:2])
              + 2 * np.sum(values[2:-2:2]) + values[-1])]. *)
Definition vectorized_form (values : list Qc) (a b : Qc) (n_node : Z)
  : outcome Qc :=
  h <~ py_div (b - a) (Z2Qc (n_node - 1)) ;;
  first <~ getitem values 0 ;;
  last <~ getitem values (-1) ;;
  inr (h / Z2Qc 3
       * (first + Z2Qc 4 * np_sum (slice values 1 (-1) 2)
          + Z2Qc 2 * np_sum (slice values 2 (-2) 2) + last)).

Section Approx.

(** [scipy.integrate.quad], the reference quadrature: a black box that
    returns a value and an error estimate. *)
Variable quad : (list Qc -> list Qc) -> Qc -> Qc -> Qc * Qc.

Definition integrate_quad (f : list Qc -> list Qc) (a b : Qc) : M (Qc * Qc) :=
  emit (EvQuad a b) ;; ret (quad f a b).

(** Lines 13-25 of [approx]: the value of the local [sum] after
    [sum *= h/6]. *)
Definition approx_sum (f : list Qc -> list Qc) (a b : Qc) (n_node : Z)
  : M Qc :=
  if (Z.land n_node 1 =? 0)%Z then
    raise (ValueError "Number of nodes cannot be even.")
  else
    let n := ((n_node - 1) / 2)%Z in
    h <- lift (py_div (b - a) (Z2Qc n)) ;;
    nodes <- np_linspace a b n_node ;;
    values <- call f nodes ;;
    sum <- lift (simpson_loop values n) ;;
    ret (sum * (h / Z2Qc 6)).

(** [approx(f, a, b, n_node, p)]: lines 13-29. *)
Definition approx (f : list Qc -> list Qc) (a b : Qc) (n_node p : Z)
  : M unit :=
  sum <- approx_sum f a b n_node ;;
  q <- integrate_quad f a b ;;
  let result := fst q in
  s1 <- lift (format_f result p) ;;
  print (ljust "Python calculated:" 20 ++ s1) ;;
  s2 <- lift (format_f sum p) ;;
  print (ljust "We calculated:" 20 ++ s2) ;;
  s3 <- lift (format_f (Qcabs (result - sum)) p) ;;
  print (ljust "Difference is" 20 ++ s3).

(** The commented variant of src/simpson.py (lines 97-119), which checks
    its arguments and returns the three numbers instead of printing. *)
Definition approx_vectorized (f : list Qc -> list Qc) (a b : Qc)
    (n_node : Z) : M (Qc * Qc * Qc) :=
  if match a ?= b with Lt => false | _ => true end then
    raise (ValueError "Integration bounds must satisfy a < b.")
  else if (n_node <=? 1)%Z then
    raise (ValueError "Number of nodes must be greater than 1.")
  else if (Z.land n_node 1 =? 0)%Z then
    raise (ValueError "Number of nodes must be odd.")
  else
    nodes <- np_linspace a b n_node ;;
    values <- call f nodes ;;
    simpson_integral <- lift (vectorized_form values a b n_node) ;;
    q <- integrate_quad f a b ;;
    let exact_integral := fst q in
    ret (simpson_integral, exact_integral,
         Qcabs (exact_integral - simpson_integral)).

End Approx.

(** A stand-in for the reference quadrature in concrete runs: the
    trapezoid on the two endpoints, with error estimate 0. *)
Definition quad_trapezoid (f : list Qc -> list Qc) (a b : Qc) : Qc * Qc :=
  ((nth 0 (f (a :: nil)) 0 + nth 0 (f (b :: nil)) 0) * (b - a) / Z2Qc 2, 0).

(** Entry [j] of a sequence, as a total function (0 outside). *)
Definition entry (l : list Qc) (j : Z) : Qc := nth (Z.to_nat j) l 0.

(** ** The formulas of the specification *)

(** [node[i] = a + i * (b - a) / (n_node - 1)]. *)
Definition node (a b : Qc) (n_node i : Z) : Qc :=
  a + Z2Qc i * (b - a) / Z2Qc (n_node - 1).

(** The sum of [F i] over [i] in [[0, k - 1]]. *)
Fixpoint sum_to (k : nat) (F : Z -> Qc) : Qc :=
  match k with
  | O => 0
  | S k' => sum_to k' F + F (Z.of_nat k')
  end.

Definition sum_range (n : Z) (F : Z -> Qc) : Qc := sum_to (Z.to_nat n) F.

(** The term of one double subinterval. *)
Definition panel (values : Z -> Qc) (i : Z) : Qc :=
  values (2 * i)%Z + Z2Qc 4 * values (2 * i + 1)%Z + values (2 * i + 2)%Z.

(** The composite Simpson estimate as the specification writes it: with
    [n = (n_node - 1) / 2] and [h = (b - a) / n], [h / 6] times the sum over
    [i] in [[0, n - 1]] of
    [values[2i] + 4 * values[2i+1] + values[2i+2]], where
    [values[j] = g (node[j])]. *)
Definition simpson_formula (g : Qc -> Qc) (a b : Qc) (n_node : Z) : Qc :=
  let n := ((n_node - 1) / 2)%Z in
  let h := (b - a) / Z2Qc n in
  let values j := g (node a b n_node j) in
  h / Z2Qc 6 * sum_range n (panel values).

(** A decimal digit. *)
Definition is_digit (c : ascii) : bool :=
  ((48 <=? nat_of_ascii c) && (nat_of_ascii c <=? 57))%nat.

Fixpoint all_digits (s : string) : bool :=
  match s with
  | EmptyString => true
  | String c s' => is_digit c && all_digits s'
  end.

(** The number a string of digits denotes, continuing from [acc]. *)
Fixpoint digits_value (acc : Z) (s : string) : Z :=
  match s with
  | EmptyString => acc
  | String c s' =>
      digits_value (10 * acc + (Z.of_nat (nat_of_ascii c) - 48))%Z s'
  end.

(** [s] is a fixed-point numeral with exactly [p] digits after the point
    (and no point when [p] is 0) whose digits, read without the point,
    denote [units]: the text stands for [units * 10^-p], up to the sign. *)
Definition decimal_text (s : string) (p : Z) (units : Z) : Prop :=
  exists sign int_part frac_part : string,
    s = (sign ++ int_part
         ++ (if (p =? 0)%Z then "" else "." ++ frac_part))%string
    /\ (sign = ""%string \/ sign = "-"%string)
    /\ int_part <> ""%string
    /\ all_digits int_part = true
    /\ all_digits frac_part = true
    /\ Z.of_nat (String.length frac_part) = p
    /\ digits_value 0 (int_part ++ frac_part) = units.

(** *** Reading a numeral back

    The reader below is independent of [fixed_text]: it takes any string of
    the shape [-ddd.ddd] (sign and fraction optional) to the number it
    denotes and to its count of digits after the point. *)

(** [s] cut at its first point. *)
Fixpoint split_point (s : string) : string * option string :=
  match s with
  | EmptyString => (EmptyString, None)
  | String c s' =>
      if Ascii.eqb c "." then (EmptyString, Some s')
      else let r := split_point s' in (String c (fst r), snd r)
  end.

Definition nonempty (s : string) : bool :=
  match s with
  | EmptyString => false
  | String _ _ => true
  end.

(** An unsigned numeral [ddd] or [ddd.ddd]: its digits read as one integer,
    and the number of digits after the point. *)
Definition read_unsigned (s : string) : option (Z * nat) :=
  let r := split_point s in
  match snd r with
  | None =>
      if nonempty (fst r) && all_digits (fst r)
      then Some (digits_value 0 (fst r), O)
      else None
  | Some frac =>
      if nonempty (fst r) && all_digits (fst r)
         && nonempty frac && all_digits frac
      then Some (digits_value 0 (fst r ++ frac), String.length frac)
      else None
  end.

(** The number a numeral denotes and its count of digits after the point;
    [None] when the string is not a numeral. *)
Definition read_decimal (s : string) : option (Qc * nat) :=
  match s with
  | EmptyString => None
  | String c s' =>
      if Ascii.eqb c "-" then
        match read_unsigned s' with
        | Some (u, k) => Some (- (Z2Qc u / Z2Qc (10 ^ Z.of_nat k)), k)
        | None => None
        end
      else
        match read_unsigned s with
        | Some (u, k) => Some (Z2Qc u / Z2Qc (10 ^ Z.of_nat k), k)
        | None => None
        end
  end.

(** [t] renders [x] to [p] decimal digits: [t] is a numeral with exactly
    [p] digits after the point, the number it denotes is within half a unit
    of the last digit of [x], and [t] carries a minus sign exactly when [x]
    is negative. *)
Definition renders (t : string) (x : Qc) (p : Z) : Prop :=
  exists v : Qc,
    read_decimal t = Some (v, Z.to_nat p)
    /\ Qcabs (v - x) * Z2Qc (2 * 10 ^ p) <= 1
    /\ (x < 0 <-> exists rest : string, t = String "-" rest).

(** A polynomial of degree at most 3 and its antiderivative; the analytic
    integral over [[a, b]] is the difference of the antiderivative at the
    bounds. *)
Definition cubic (c0 c1 c2 c3 x : Qc) : Qc :=
  c0 + c1 * x + c2 * x * x + c3 * x * x * x.

Definition cubic_primitive (c0 c1 c2 c3 x : Qc) : Qc :=
  c0 * x + c1 * x * x / Z2Qc 2 + c2 * x * x * x / Z2Qc 3
  + c3 * x * x * x * x / Z2Qc 4.

Definition cubic_integral (c0 c1 c2 c3 a b : Qc) : Qc :=
  cubic_primitive c0 c1 c2 c3 b - cubic_primitive c0 c1 c2 c3 a.

Definition cube (x : Qc) : Qc := x * x * x.

(** An action is oblivious of the log when its outcome and the events it
    appends do not depend on the log it starts from. *)
Definition oblivious {A} (c : M A) : Prop :=
  exists (r : outcome A) (out : list event),
    forall log, c log = (r, (log ++ out)%list).

(** ** The commented variant's printer and its example *)

(** [print_results(simpson_integral, exact_integral, difference, precision)]
    of the commented code (src/simpson.py, lines 122-142): the reference is
    printed first; the third label ends in a colon, which the label of the
    active code does not. *)
Definition print_results (simpson_integral exact_integral difference : Qc)
    (precision : Z) : M unit :=
  s1 <- lift (format_f exact_integral precision) ;;
  print (ljust "Python calculated:" 20 ++ s1) ;;
  s2 <- lift (format_f simpson_integral precision) ;;
  print (ljust "We calculated:" 20 ++ s2) ;;
  s3 <- lift (format_f difference precision) ;;
  print (ljust "Difference is:" 20 ++ s3).

(** The two statements of the commented example (lines 146-147),
    [simpson_result, exact_result, diff = approx(f, a, b, n_node)] and
    [print_results(simpson_result, exact_result, diff, precision)], for any
    arguments. *)
Definition example_usage
    (quad : (list Qc -> list Qc) -> Qc -> Qc -> Qc * Qc)
    (f : list Qc -> list Qc) (a b : Qc) (n_node precision : Z) : M unit :=
  r <- approx_vectorized quad f a b n_node ;;
  let simpson_result := fst (fst r) in
  let exact_result := snd (fst r) in
  let diff := snd r in
  print_results simpson_result exact_result diff precision.

(** [k] zeros. *)
Fixpoint zeros (k : nat) : string :=
  match k with
  | O => EmptyString
  | S k' => String "0" (zeros k')
  end.

(** ** Lines 13-25 on binary64 numbers

    The same statements as [linspace], [simpson_loop] and [approx_sum],
    with Python's and numpy's float arithmetic: every operation is the
    IEEE 754 binary64 operation, rounded to nearest, ties to even.  An
    [int] meeting a float ([4 * values[k]], [sum = 0], [h / 6], the [n] of
    [(b - a) / n]) is first converted to the float of the same value. *)
Module B64.

Definition prec : Z := 53.
Definition emax : Z := 1024.

Definition add : spec_float -> spec_float -> spec_float := SFadd prec emax.
Definition sub : spec_float -> spec_float -> spec_float := SFsub prec emax.
Definition mul : spec_float -> spec_float -> spec_float := SFmul prec emax.
Definition div : spec_float -> spec_float -> spec_float := SFdiv prec emax.

(** [float(z)] for an integer of absolute value below [2^53] (exact). *)
Definition of_int (z : Z) : spec_float := binary_normalize prec emax z 0 false.

Definition is_zero (x : spec_float) : bool :=
  match x with
  | S754_zero _ => true
  | _ => false
  end.

Definition getitem (l : list spec_float) (k : Z) : outcome spec_float :=
  let len := Z.of_nat (List.length l) in
  let k' := if (k <? 0)%Z then (k + len)%Z else k in
  if ((k' <? 0) || (len <=? k'))%Z then inl IndexError
  else match nth_error l (Z.to_nat k') with
       | Some x => inr x
       | None => inl IndexError
       end.

Definition set_last (l : list spec_float) (x : spec_float)
  : list spec_float := (removelast l ++ x :: nil)%list.

(** [numpy.linspace(start, stop, num)] as numpy computes it:
    [step = delta / div], [y = arange(0, num) * step] (or
    [y / div * delta] when [step == 0]), [y += start], [y[-1] = stop]. *)
Definition linspace (start stop : spec_float) (num : Z)
  : outcome (list spec_float) :=
  if (num <? 0)%Z then
    inl (ValueError ("Number of samples, " ++ Z_string num
                     ++ ", must be non-negative."))
  else
    let dv := (num - 1)%Z in
    let delta := sub stop start in
    let y := map of_int (range num) in
    let y :=
      if (0 <? dv)%Z then
        let step := div delta (of_int dv) in
        if is_zero step then map (fun t => mul (div t (of_int dv)) delta) y
        else map (fun t => mul t step) y
      else map (fun t => mul t delta) y in
    let y := map (fun t => add t start) y in
    inr (if (1 <? num)%Z then set_last y stop else y).

Definition simpson_loop (values : list spec_float) (n : Z)
  : outcome spec_float :=
  for_each
    (fun i sum =>
       v0 <~ getitem values (2 * i) ;;
       v1 <~ getitem values (2 * i + 1) ;;
       v2 <~ getitem values (2 * i + 2) ;;
       inr (add sum (add (add v0 (mul (of_int 4) v1)) v2)))
    (range n) (of_int 0).

(** Lines 13-25 with bounds that are Python numbers and an integrand [g]
    applied entry by entry. *)
Definition approx_sum (g : spec_float -> spec_float) (a b : spec_float)
    (n_node : Z) : outcome spec_float :=
  if (Z.land n_node 1 =? 0)%Z then
    inl (ValueError "Number of nodes cannot be even.")
  else
    let n := ((n_node - 1) / 2)%Z in
    h <~ (if (n =? 0)%Z then inl ZeroDivisionError
          else inr (div (sub b a) (of_int n))) ;;
    nodes <~ linspace a b n_node ;;
    let values := map g nodes in
    sum <~ simpson_loop values n ;;
    inr (mul sum (div h (of_int 6))).

(** [lambda x: x * x * x]. *)
Definition cube (x : spec_float) : spec_float := mul (mul x x) x.

End B64.

(** * Properties *)

Create HintDb qc.

(** ** Integers as rationals *)

Lemma Z2Qc_add (x y : Z) : Z2Qc (x + y) = Z2Qc x + Z2Qc y.
Proof.
  unfold Z2Qc, Qcplus. apply Q2Qc_eq_iff.
  rewrite inject_Z_plus. apply Qplus_comp; symmetry; apply Qred_correct.
Qed.

Lemma Z2Qc_mul (x y : Z) : Z2Qc (x * y) = Z2Qc x * Z2Qc y.
Proof.
  unfold Z2Qc, Qcmult. apply Q2Qc_eq_iff.
  rewrite inject_Z_mult. apply Qmult_comp; symmetry; apply Qred_correct.
Qed.

Lemma Z2Qc_opp (x : Z) : Z2Qc (- x) = - Z2Qc x.
Proof.
  unfold Z2Qc, Qcopp. apply Q2Qc_eq_iff.
  rewrite inject_Z_opp. apply Qopp_comp; symmetry; apply Qred_correct.
Qed.

Lemma Z2Qc_sub (x y : Z) : Z2Qc (x - y) = Z2Qc x - Z2Qc y.
Proof.
  unfold Z.sub, Qcminus. now rewrite Z2Qc_add, Z2Qc_opp.
Qed.

Lemma Z2Qc_0 : Z2Qc 0 = 0.
Proof. reflexivity. Qed.

Lemma Z2Qc_1 : Z2Qc 1 = 1.
Proof. reflexivity. Qed.

Lemma Z2Qc_inj (x y : Z) : Z2Qc x = Z2Qc y -> x = y.
Proof.
  unfold Z2Qc. intros H. apply Q2Qc_eq_iff in H.
  now apply inject_Z_injective.
Qed.

Lemma Z2Qc_neq0 (x : Z) : x <> 0%Z -> Z2Qc x <> 0.
Proof.
  intros Hx H. apply Hx, Z2Qc_inj. now rewrite Z2Qc_0.
Qed.

Lemma Z2Qc_2 : Z2Qc 2 = 1 + 1.
Proof. now rewrite <- Z2Qc_1, <- Z2Qc_add. Qed.

Lemma Z2Qc_3 : Z2Qc 3 = 1 + 1 + 1.
Proof. now rewrite <- Z2Qc_1, <- !Z2Qc_add. Qed.

Lemma Z2Qc_4 : Z2Qc 4 = (1 + 1) * (1 + 1).
Proof. now rewrite <- Z2Qc_1, <- !Z2Qc_add, <- Z2Qc_mul. Qed.

Lemma Z2Qc_6 : Z2Qc 6 = (1 + 1) * (1 + 1 + 1).
Proof. now rewrite <- Z2Qc_1, <- !Z2Qc_add, <- Z2Qc_mul. Qed.

Lemma Qc_two_neq0 : 1 + 1 <> 0.
Proof. rewrite <- Z2Qc_2. now apply Z2Qc_neq0. Qed.

Lemma Qc_three_neq0 : 1 + 1 + 1 <> 0.
Proof. rewrite <- Z2Qc_3. now apply Z2Qc_neq0. Qed.

#[local] Hint Resolve Qc_two_neq0 Qc_three_neq0 Z2Qc_neq0 : qc.

(** Integer constants and integer arithmetic are moved into the field, where
    [ring] and [field] decide the equations. *)
Ltac push_Z2Qc :=
  rewrite ?Z2Qc_add, ?Z2Qc_sub, ?Z2Qc_mul, ?Z2Qc_opp,
    ?Z2Qc_6, ?Z2Qc_4, ?Z2Qc_3, ?Z2Qc_2, ?Z2Qc_1, ?Z2Qc_0.

Ltac qc_const_neq0 :=
  let H := fresh in
  intro H; apply (f_equal this) in H; vm_compute in H; discriminate H.

Ltac qc_field :=
  push_Z2Qc; field; repeat split; auto with qc; try qc_const_neq0.

(** ** Parity and the subinterval count *)

Lemma land_1_odd (z : Z) : (Z.land z 1 =? 0)%Z = negb (Z.odd z).
Proof.
  change 1%Z with (Z.ones 1). rewrite Z.land_ones by lia.
  change (2 ^ 1)%Z with 2%Z. rewrite Zmod_odd.
  now destruct (Z.odd z).
Qed.

(** An odd node count [n_node >= 3] is [2 * n + 1] for the count
    [n = (n_node - 1) // 2 >= 1] of double subintervals. *)
Lemma odd_count (n_node : Z) :
  Z.odd n_node = true -> (3 <= n_node)%Z ->
  let n := ((n_node - 1) / 2)%Z in
  (n_node = 2 * n + 1 /\ 1 <= n)%Z.
Proof.
  intros Hodd Hge n. subst n.
  pose proof (Zmod_odd n_node) as Hm. rewrite Hodd in Hm.
  pose proof (Z.div_mod n_node 2 ltac:(lia)) as Hd.
  assert (Hq : ((n_node - 1) / 2 = n_node / 2)%Z).
  { replace (n_node - 1)%Z with (n_node / 2 * 2)%Z by lia.
    apply Z.div_mul; lia. }
  rewrite Hq. lia.
Qed.

(** ** Sequences *)

Lemma range_S (k : nat) :
  range (Z.of_nat (S k)) = (range (Z.of_nat k) ++ (Z.of_nat k :: nil))%list.
Proof.
  unfold range. rewrite !Nat2Z.id, seq_S, map_app. reflexivity.
Qed.

Lemma range_length (k : nat) : List.length (range (Z.of_nat k)) = k.
Proof.
  unfold range. now rewrite length_map, length_seq, Nat2Z.id.
Qed.

Lemma range_nonpos (n : Z) : (n <= 0)%Z -> range n = nil.
Proof.
  intros H. unfold range. now replace (Z.to_nat n) with O by lia.
Qed.

Lemma In_range (n i : Z) : In i (range n) <-> (0 <= i < n)%Z.
Proof.
  unfold range. rewrite in_map_iff. split.
  - intros [j [<- Hj]]. apply in_seq in Hj. lia.
  - intros Hi. exists (Z.to_nat i). split; [lia|]. apply in_seq. lia.
Qed.

Lemma for_each_app {S} (body : Z -> S -> outcome S) (l1 l2 : list Z) (s : S) :
  for_each body (l1 ++ l2) s = rbind (for_each body l1 s) (for_each body l2).
Proof.
  revert s. induction l1 as [|i l1 IH]; intros s; simpl; [reflexivity|].
  destruct (body i s); [reflexivity | apply IH].
Qed.

Lemma getitem_in_range (l : list Qc) (j : Z) :
  (0 <= j < Z.of_nat (List.length l))%Z -> getitem l j = inr (entry l j).
Proof.
  intros Hj. unfold getitem, entry.
  destruct (Z.ltb_spec j 0); [lia|].
  destruct (Z.ltb_spec j 0); [lia|].
  destruct (Z.leb_spec (Z.of_nat (List.length l)) j); [lia|]. cbn [orb].
  destruct (nth_error l (Z.to_nat j)) as [x|] eqn:E.
  - now rewrite (nth_error_nth _ _ _ E).
  - apply nth_error_None in E. lia.
Qed.

Lemma getitem_last (l : list Qc) :
  l <> nil ->
  getitem l (-1) = inr (entry l (Z.of_nat (List.length l) - 1)).
Proof.
  intros Hl. unfold getitem, entry.
  assert (0 < List.length l)%nat by (destruct l; simpl; [congruence | lia]).
  change (-1 <? 0)%Z with true. cbv iota.
  destruct (Z.ltb_spec (-1 + Z.of_nat (List.length l)) 0); [lia|].
  destruct (Z.leb_spec (Z.of_nat (List.length l))
              (-1 + Z.of_nat (List.length l))); [lia|]. cbn [orb].
  replace (Z.to_nat (Z.of_nat (List.length l) - 1))
    with (Z.to_nat (-1 + Z.of_nat (List.length l))) by lia.
  destruct (nth_error l (Z.to_nat (-1 + Z.of_nat (List.length l))))
    as [x|] eqn:E.
  - now rewrite (nth_error_nth _ _ _ E).
  - apply nth_error_None in E. lia.
Qed.

Lemma entry_table (F : Z -> Qc) (k : nat) (j : Z) :
  (0 <= j < Z.of_nat k)%Z -> entry (map F (range (Z.of_nat k))) j = F j.
Proof.
  intros Hj. unfold entry, range. rewrite Nat2Z.id, map_map.
  assert (E : nth_error (map (fun x => F (Z.of_nat x)) (seq 0 k)) (Z.to_nat j)
              = Some (F j)).
  { rewrite nth_error_map, nth_error_seq.
    destruct (Nat.ltb_spec (Z.to_nat j) k); [|lia]. simpl.
    now rewrite Z2Nat.id by lia. }
  now rewrite (nth_error_nth _ _ _ E).
Qed.

Lemma entry_map (g : Qc -> Qc) (l : list Qc) (j : Z) :
  (0 <= j < Z.of_nat (List.length l))%Z ->
  entry (map g l) j = g (entry l j).
Proof.
  intros Hj. unfold entry.
  rewrite (nth_indep (map g l) 0 (g 0)) by (rewrite length_map; lia).
  apply map_nth.
Qed.

(** ** The node set *)

(** numpy's [linspace] builds the nodes of the specification. *)
Lemma linspace_nodes (a b : Qc) (num : Z) :
  (1 < num)%Z -> linspace a b num = inr (map (node a b num) (range num)).
Proof.
  intros Hnum. unfold linspace.
  destruct (Z.ltb_spec num 0); [lia|].
  destruct (Z.ltb_spec 0 (num - 1)); [|lia].
  destruct (Z.ltb_spec 1 num); [|lia].
  f_equal. unfold set_last.
  assert (Hd : Z2Qc (num - 1) <> 0) by (apply Z2Qc_neq0; lia).
  destruct (Z.to_nat num) as [|k] eqn:Ek; [lia|].
  assert (Hr : range num = range (Z.of_nat (S k))) by (f_equal; lia).
  rewrite Hr, range_S, !map_app, !map_map. cbn [map].
  rewrite removelast_last. f_equal.
  - apply map_ext. intros i. unfold node. field. exact Hd.
  - f_equal. unfold node.
    replace (Z.of_nat k) with (num - 1)%Z by lia. field. exact Hd.
Qed.

Lemma nodes_length (a b : Qc) (num : Z) :
  (0 <= num)%Z ->
  Z.of_nat (List.length (map (node a b num) (range num))) = num.
Proof.
  intros H. rewrite length_map.
  replace num with (Z.of_nat (Z.to_nat num)) at 1 by lia.
  rewrite range_length. lia.
Qed.

Lemma nodes_entry (a b : Qc) (num j : Z) :
  (0 <= j < num)%Z ->
  entry (map (node a b num) (range num)) j = node a b num j.
Proof.
  intros H.
  replace num with (Z.of_nat (Z.to_nat num)) at 2 by lia.
  apply entry_table. lia.
Qed.

(** ** The summation loop *)

(** On a sequence long enough for [k] double subintervals the loop raises
    nothing and returns the sum of the [k] panel terms. *)
Lemma simpson_loop_sum (values : list Qc) (k : nat) :
  (2 * Z.of_nat k + 1 <= Z.of_nat (List.length values))%Z ->
  simpson_loop values (Z.of_nat k) = inr (sum_to k (panel (entry values))).
Proof.
  unfold simpson_loop. induction k as [|k IH]; intros Hlen.
  - reflexivity.
  - rewrite range_S, for_each_app, IH by lia. cbn [rbind for_each].
    rewrite !getitem_in_range by lia. reflexivity.
Qed.

Lemma sum_to_ext (k : nat) (F G : Z -> Qc) :
  (forall i, (0 <= i < Z.of_nat k)%Z -> F i = G i) -> sum_to k F = sum_to k G.
Proof.
  induction k as [|k IH]; intros H; cbn [sum_to]; [reflexivity|].
  rewrite IH, H by (try intros i Hi; try apply H; lia). reflexivity.
Qed.

Lemma py_div_ok (x d : Qc) : d <> 0 -> py_div x d = inr (x / d).
Proof.
  intros Hd. unfold py_div. destruct (Qc_eq_dec d 0); [contradiction | reflexivity].
Qed.

(** The reduction on a sequence of [n_node] values, [n_node] odd and at
    least 3. *)
Lemma loop_form_sum (values : list Qc) (a b : Qc) (n_node : Z) :
  Z.odd n_node = true -> (3 <= n_node)%Z ->
  Z.of_nat (List.length values) = n_node ->
  loop_form values a b n_node
  = inr (sum_range ((n_node - 1) / 2) (panel (entry values))
         * ((b - a) / Z2Qc ((n_node - 1) / 2) / Z2Qc 6)).
Proof.
  intros Hodd Hge Hlen. destruct (odd_count n_node Hodd Hge) as [Hn Hn1].
  unfold loop_form. rewrite py_div_ok by (apply Z2Qc_neq0; lia).
  cbn [rbind]. unfold sum_range.
  replace ((n_node - 1) / 2)%Z with (Z.of_nat (Z.to_nat ((n_node - 1) / 2)))
    at 1 by lia.
  rewrite simpson_loop_sum by lia. reflexivity.
Qed.

(** The values of a ufunc on the nodes are the function at each node. *)
Lemma ufunc_nodes_entry (g : Qc -> Qc) (a b : Qc) (n_node j : Z) :
  (0 <= j < n_node)%Z ->
  entry (ufunc g (map (node a b n_node) (range n_node))) j
  = g (node a b n_node j).
Proof.
  intros Hj. unfold ufunc.
  rewrite entry_map by (rewrite nodes_length; lia).
  now rewrite nodes_entry.
Qed.

Lemma loop_form_formula (g : Qc -> Qc) (a b : Qc) (n_node : Z) :
  Z.odd n_node = true -> (3 <= n_node)%Z ->
  loop_form (ufunc g (map (node a b n_node) (range n_node))) a b n_node
  = inr (simpson_formula g a b n_node).
Proof.
  intros Hodd Hge. destruct (odd_count n_node Hodd Hge) as [Hn Hn1].
  rewrite loop_form_sum; try assumption.
  2:{ unfold ufunc. rewrite length_map. apply nodes_length. lia. }
  f_equal. unfold simpson_formula, sum_range.
  rewrite (sum_to_ext _ (panel (entry (ufunc g (map (node a b n_node) (range n_node)))))
             (panel (fun j => g (node a b n_node j)))).
  - apply Qcmult_comm.
  - intros i Hi. unfold panel. rewrite !ufunc_nodes_entry by lia. reflexivity.
Qed.

(** ** Running the active code *)

(** For an odd [n_node >= 3] the first part of [approx] calls [linspace]
    and then [f], once each, and reduces [f]'s values. *)
Lemma approx_sum_run (f : list Qc -> list Qc) (a b : Qc) (n_node : Z)
    (log : list event) :
  Z.odd n_node = true -> (3 <= n_node)%Z ->
  let nodes := map (node a b n_node) (range n_node) in
  approx_sum f a b n_node log
  = (loop_form (f nodes) a b n_node,
     (log ++ EvLinspace a b n_node :: EvCall nodes :: nil)%list).
Proof.
  intros Hodd Hge nodes. destruct (odd_count n_node Hodd Hge) as [Hn Hn1].
  unfold approx_sum, loop_form. rewrite land_1_odd, Hodd. cbn [negb].
  rewrite py_div_ok by (apply Z2Qc_neq0; lia).
  unfold np_linspace, call. unfold bind, lift, emit, ret. cbn [rbind].
  rewrite linspace_nodes by lia. fold nodes.
  rewrite <- app_assoc. cbn [app].
  destruct (simpson_loop (f nodes) ((n_node - 1) / 2)); reflexivity.
Qed.

(** ** Exactness on cubics *)

(** On one double subinterval Simpson's rule integrates a cubic exactly. *)
Lemma panel_exact (c0 c1 c2 c3 a b : Qc) (n i : Z) :
  (1 <= n)%Z ->
  (b - a) / Z2Qc n / Z2Qc 6
  * panel (fun j => cubic c0 c1 c2 c3 (node a b (2 * n + 1) j)) i
  = cubic_primitive c0 c1 c2 c3 (node a b (2 * n + 1) (2 * i + 2))
    - cubic_primitive c0 c1 c2 c3 (node a b (2 * n + 1) (2 * i)).
Proof.
  intros Hn. unfold panel, cubic, cubic_primitive, node.
  replace (2 * n + 1 - 1)%Z with (2 * n)%Z by lia.
  assert (Hd : Z2Qc n <> 0) by (apply Z2Qc_neq0; lia).
  push_Z2Qc. generalize dependent (Z2Qc n). generalize (Z2Qc i).
  intros x y Hy. qc_field.
Qed.

(** The panels telescope. *)
Lemma panels_telescope (c0 c1 c2 c3 a b : Qc) (n : Z) (k : nat) :
  (1 <= n)%Z ->
  (b - a) / Z2Qc n / Z2Qc 6
  * sum_to k (panel (fun j => cubic c0 c1 c2 c3 (node a b (2 * n + 1) j)))
  = cubic_primitive c0 c1 c2 c3 (node a b (2 * n + 1) (2 * Z.of_nat k))
    - cubic_primitive c0 c1 c2 c3 (node a b (2 * n + 1) 0).
Proof.
  intros Hn. induction k as [|k IH].
  - cbn [sum_to]. change (2 * Z.of_nat 0)%Z with 0%Z. ring.
  - cbn [sum_to]. rewrite Qcmult_plus_distr_r, IH, panel_exact by exact Hn.
    replace (2 * Z.of_nat (S k))%Z with (2 * Z.of_nat k + 2)%Z by lia.
    ring.
Qed.

Lemma node_first (a b : Qc) (n_node : Z) : node a b n_node 0 = a.
Proof.
  unfold node. rewrite Z2Qc_0. unfold Qcdiv. ring.
Qed.

Lemma node_last (a b : Qc) (n_node : Z) :
  (1 < n_node)%Z -> node a b n_node (n_node - 1) = b.
Proof.
  intros H. unfold node. field. apply Z2Qc_neq0. lia.
Qed.

Lemma simpson_formula_cubic (c0 c1 c2 c3 a b : Qc) (n_node : Z) :
  Z.odd n_node = true -> (3 <= n_node)%Z ->
  simpson_formula (cubic c0 c1 c2 c3) a b n_node
  = cubic_integral c0 c1 c2 c3 a b.
Proof.
  intros Hodd Hge. destruct (odd_count n_node Hodd Hge) as [Hn Hn1].
  unfold simpson_formula, sum_range, cubic_integral.
  set (n := ((n_node - 1) / 2)%Z) in *.
  clearbody n. subst n_node.
  replace (2 * n + 1 - 1)%Z with (2 * n)%Z in Hn1 |- * by lia.
  rewrite panels_telescope by exact Hn1.
  rewrite Z2Nat.id by lia.
  replace (2 * n)%Z with (2 * n + 1 - 1)%Z at 2 by lia.
  rewrite node_first, node_last by lia. reflexivity.
Qed.

(** ** Swapping the bounds *)





(** ** The vectorised reduction *)

Lemma np_sum_table (F : Z -> Qc) (k : nat) :
  np_sum (map F (range (Z.of_nat k))) = sum_to k F.
Proof.
  unfold np_sum. induction k as [|k IH].
  - reflexivity.
  - rewrite range_S, map_app, fold_left_app, IH. reflexivity.
Qed.

(** [values[1:-1:2]]: the odd-indexed interior values. *)
Lemma slice_odd (values : list Qc) (k : nat) :
  Z.of_nat (List.length values) = (2 * Z.of_nat (S k) + 1)%Z ->
  slice values 1 (-1) 2
  = map (fun i => entry values (1 + i * 2)) (range (Z.of_nat (S k))).
Proof.
  intros Hlen. unfold slice. rewrite Hlen.
  change (1 <? 0)%Z with false. change (-1 <? 0)%Z with true. cbv iota.
  rewrite Z.min_l, Z.max_r by lia.
  destruct (Z.ltb_spec 1 (-1 + (2 * Z.of_nat (S k) + 1))); [|lia].
  replace (-1 + (2 * Z.of_nat (S k) + 1) - 1 - 1)%Z
    with (Z.of_nat k * 2)%Z by lia.
  rewrite Z.div_mul by lia.
  replace (Z.of_nat k + 1)%Z with (Z.of_nat (S k)) by lia.
  reflexivity.
Qed.

(** [values[2:-2:2]]: the even-indexed interior values. *)
Lemma slice_even (values : list Qc) (k : nat) :
  Z.of_nat (List.length values) = (2 * Z.of_nat (S k) + 1)%Z ->
  slice values 2 (-2) 2
  = map (fun i => entry values (2 + i * 2)) (range (Z.of_nat k)).
Proof.
  intros Hlen. unfold slice. rewrite Hlen.
  change (2 <? 0)%Z with false. change (-2 <? 0)%Z with true. cbv iota.
  rewrite Z.min_l, Z.max_r by lia.
  destruct (Z.ltb_spec 2 (-2 + (2 * Z.of_nat (S k) + 1))) as [Hlt|Hge].
  - replace (-2 + (2 * Z.of_nat (S k) + 1) - 2 - 1)%Z
      with ((Z.of_nat k - 1) * 2)%Z by lia.
    rewrite Z.div_mul by lia.
    replace (Z.of_nat k - 1 + 1)%Z with (Z.of_nat k) by lia.
    reflexivity.
  - assert (k = O) by lia. subst k. reflexivity.
Qed.

(** The panel terms regrouped by weight: the two ends once, the odd
    entries four times, the even interior entries twice. *)
Lemma panels_regroup (V : Z -> Qc) (k : nat) :
  sum_to (S k) (panel V)
  = V 0%Z + Z2Qc 4 * sum_to (S k) (fun i => V (1 + i * 2)%Z)
    + Z2Qc 2 * sum_to k (fun i => V (2 + i * 2)%Z)
    + V (2 * Z.of_nat (S k))%Z.
Proof.
  induction k as [|k IH].
  - cbn [sum_to]. unfold panel.
    change (2 * Z.of_nat 0)%Z with 0%Z. change (0 + 1)%Z with 1%Z.
    change (0 + 2)%Z with 2%Z. change (1 + Z.of_nat 0 * 2)%Z with 1%Z.
    change (2 * Z.of_nat 1)%Z with 2%Z. ring.
  - change (sum_to (S (S k)) (panel V))
      with (sum_to (S k) (panel V) + panel V (Z.of_nat (S k))).
    rewrite IH. unfold panel. cbn [sum_to].
    replace (2 + Z.of_nat k * 2)%Z with (2 * Z.of_nat (S k))%Z by lia.
    replace (1 + Z.of_nat (S k) * 2)%Z with (2 * Z.of_nat (S k) + 1)%Z by lia.
    replace (2 * Z.of_nat (S (S k)))%Z with (2 * Z.of_nat (S k) + 2)%Z by lia.
    push_Z2Qc. ring.
Qed.

Lemma vectorized_form_sum (values : list Qc) (a b : Qc) (k : nat) :
  Z.of_nat (List.length values) = (2 * Z.of_nat (S k) + 1)%Z ->
  vectorized_form values a b (2 * Z.of_nat (S k) + 1)
  = inr ((b - a) / Z2Qc (2 * Z.of_nat (S k)) / Z2Qc 3
         * sum_to (S k) (panel (entry values))).
Proof.
  intros Hlen. unfold vectorized_form.
  replace (2 * Z.of_nat (S k) + 1 - 1)%Z with (2 * Z.of_nat (S k))%Z by lia.
  rewrite py_div_ok by (apply Z2Qc_neq0; lia). cbn [rbind].
  rewrite getitem_in_range by lia. cbn [rbind].
  rewrite getitem_last by (destruct values; [discriminate | congruence]).
  cbn [rbind]. rewrite Hlen.
  rewrite (slice_odd values k Hlen), (slice_even values k Hlen).
  rewrite !np_sum_table, panels_regroup.
  replace (2 * Z.of_nat (S k) + 1 - 1)%Z with (2 * Z.of_nat (S k))%Z by lia.
  reflexivity.
Qed.

(** ** Decimal text *)

Lemma string_length_app (s1 s2 : string) :
  String.length (s1 ++ s2) = (String.length s1 + String.length s2)%nat.
Proof.
  induction s1 as [|c s1 IH]; cbn; [reflexivity | now rewrite IH].
Qed.

Lemma digits_fixed_length (k : nat) (m : Z) :
  String.length (digits_fixed k m) = k.
Proof.
  revert m. induction k as [|k IH]; intros m; cbn [digits_fixed].
  - reflexivity.
  - rewrite string_length_app, IH. cbn. lia.
Qed.

Lemma digit_char_code (d : Z) :
  Z.of_nat (nat_of_ascii (digit_char d)) = (48 + d mod 10)%Z.
Proof.
  unfold digit_char.
  pose proof (Z.mod_pos_bound d 10 ltac:(lia)) as Hd.
  rewrite nat_ascii_embedding by lia. lia.
Qed.

Lemma is_digit_digit_char (d : Z) : is_digit (digit_char d) = true.
Proof.
  pose proof (digit_char_code d) as H.
  pose proof (Z.mod_pos_bound d 10 ltac:(lia)) as Hd.
  unfold is_digit. apply andb_true_intro. split; apply Nat.leb_le; lia.
Qed.

Lemma all_digits_app (s1 s2 : string) :
  all_digits (s1 ++ s2) = all_digits s1 && all_digits s2.
Proof.
  induction s1 as [|c s1 IH]; cbn; [reflexivity|].
  now rewrite IH, andb_assoc.
Qed.

Lemma all_digits_digits_fixed (k : nat) (m : Z) :
  all_digits (digits_fixed k m) = true.
Proof.
  revert m. induction k as [|k IH]; intros m; cbn [digits_fixed].
  - reflexivity.
  - rewrite all_digits_app, IH. cbn [all_digits andb].
    now rewrite is_digit_digit_char.
Qed.

Lemma digits_value_app (acc : Z) (s1 s2 : string) :
  digits_value acc (s1 ++ s2) = digits_value (digits_value acc s1) s2.
Proof.
  revert acc. induction s1 as [|c s1 IH]; intros acc; cbn; [reflexivity|].
  apply IH.
Qed.

(** [digits_fixed k m] writes the last [k] digits of [m]. *)
Lemma digits_value_fixed (k : nat) (acc m : Z) :
  digits_value acc (digits_fixed k m)
  = (acc * 10 ^ Z.of_nat k + m mod 10 ^ Z.of_nat k)%Z.
Proof.
  revert m. induction k as [|k IH]; intros m.
  - cbn [digits_fixed digits_value]. change (10 ^ Z.of_nat 0)%Z with 1%Z.
    rewrite Z.mod_1_r. lia.
  - cbn [digits_fixed]. rewrite digits_value_app, IH.
    cbn [digits_value]. rewrite digit_char_code.
    rewrite Nat2Z.inj_succ, Z.pow_succ_r by lia.
    rewrite (Z.rem_mul_r m 10 (10 ^ Z.of_nat k)) by lia. lia.
Qed.

Lemma digit_count_enough (fuel : nat) (m : Z) :
  (0 <= m < 10 * 2 ^ Z.of_nat fuel)%Z ->
  (m < 10 ^ Z.of_nat (digit_count fuel m))%Z.
Proof.
  revert m. induction fuel as [|fuel IH]; intros m Hm.
  - cbn in *. lia.
  - cbn [digit_count]. destruct (Z.ltb_spec m 10) as [Hlt|Hge].
    + cbn. lia.
    + rewrite Nat2Z.inj_succ, Z.pow_succ_r in * by lia.
      assert (m / 10 < 10 ^ Z.of_nat (digit_count fuel (m / 10)))%Z.
      { apply IH. split; [apply Z.div_pos; lia|].
        apply Z.div_lt_upper_bound; [lia|].
        assert (0 < 2 ^ Z.of_nat fuel)%Z by (apply Z.pow_pos_nonneg; lia).
        lia. }
      pose proof (Z.div_mod m 10 ltac:(lia)).
      pose proof (Z.mod_pos_bound m 10 ltac:(lia)). lia.
Qed.

Lemma digit_count_pos (fuel : nat) (m : Z) : (1 <= digit_count fuel m)%nat.
Proof.
  destruct fuel; cbn; [lia|]. destruct (m <? 10)%Z; lia.
Qed.

(** [nat_string m] writes all of [m >= 0]. *)
Lemma nat_string_value (m : Z) :
  (0 <= m)%Z -> digits_value 0 (nat_string m) = m.
Proof.
  intros Hm. unfold nat_string. rewrite digits_value_fixed.
  rewrite Z.mod_small; [lia|]. split; [exact Hm|].
  apply digit_count_enough. split; [exact Hm|].
  rewrite Z2Nat.id by apply Z.log2_nonneg.
  destruct (Z.eq_dec m 0) as [->|Hne]; [cbn; lia|].
  pose proof (Z.log2_spec m ltac:(lia)) as [_ Hup].
  rewrite Z.pow_succ_r in Hup by apply Z.log2_nonneg. lia.
Qed.

Lemma nat_string_digits (m : Z) : all_digits (nat_string m) = true.
Proof. apply all_digits_digits_fixed. Qed.

Lemma nat_string_nonempty (m : Z) : nat_string m <> ""%string.
Proof.
  unfold nat_string. intros H. apply (f_equal String.length) in H.
  rewrite digits_fixed_length in H.
  pose proof (digit_count_pos (Z.to_nat (Z.log2 m)) m). cbn in H. lia.
Qed.

(** ** Rounding *)

Lemma round_half_even_nonneg (q : Q) :
  (0 <= Qnum q)%Z -> (0 <= round_half_even q)%Z.
Proof.
  intros Hq. unfold round_half_even.
  assert (0 <= Qnum q / Z.pos (Qden q))%Z by (apply Z.div_pos; lia).
  destruct (2 * (Qnum q mod Z.pos (Qden q)) ?= Z.pos (Qden q))%Z;
    [destruct (Z.even _) | |]; lia.
Qed.


Lemma Qc_nonneg_num (y : Qc) : 0 <= y -> (0 <= Qnum (this y))%Z.
Proof.
  unfold Qcle, Qle. cbn. lia.
Qed.

Lemma Z2Qc_nonneg (z : Z) : (0 <= z)%Z -> 0 <= Z2Qc z.
Proof.
  intros Hz. unfold Qcle, Z2Qc. cbn [this Q2Qc].
  rewrite !Qred_correct. unfold Qle. cbn. lia.
Qed.

Lemma scaled_abs_nonneg (x : Qc) (p : Z) :
  (0 <= p)%Z -> 0 <= Qcabs x * Z2Qc (10 ^ p).
Proof.
  intros Hp. rewrite <- (Qcmult_0_l (Z2Qc (10 ^ p))).
  apply Qcmult_le_compat_r; [apply Qcabs_nonneg|].
  apply Z2Qc_nonneg. apply Z.pow_nonneg. lia.
Qed.

(** The text written for [x] has [p] digits after the point and denotes
    [|x| * 10^p] rounded to the nearest integer, in units of [10^-p]. *)
Lemma fixed_text_decimal (x : Qc) (p : Z) :
  (0 <= p)%Z ->
  decimal_text (fixed_text x p) p
    (round_half_even (this (Qcabs x * Z2Qc (10 ^ p)))).
Proof.
  intros Hp. unfold fixed_text.
  set (m := round_half_even (this (Qcabs x * Z2Qc (10 ^ p)))).
  assert (Hm : (0 <= m)%Z).
  { apply round_half_even_nonneg, Qc_nonneg_num, scaled_abs_nonneg, Hp. }
  exists (match x ?= 0 with Lt => "-"%string | _ => ""%string end),
    (nat_string (m / 10 ^ p)), (digits_fixed (Z.to_nat p) m).
  assert (Hpow : (0 < 10 ^ p)%Z) by (apply Z.pow_pos_nonneg; lia).
  repeat split.
  - destruct (x ?= 0); auto.
  - apply nat_string_nonempty.
  - apply nat_string_digits.
  - apply all_digits_digits_fixed.
  - rewrite digits_fixed_length. lia.
  - rewrite digits_value_app, nat_string_value by (apply Z.div_pos; lia).
    rewrite digits_value_fixed, Z2Nat.id by lia.
    pose proof (Z.div_mod m (10 ^ p) ltac:(lia)). lia.
Qed.

Lemma format_f_ok (x : Qc) (p : Z) :
  (0 <= p)%Z -> format_f x p = inr (fixed_text x p).
Proof.
  intros Hp. unfold format_f. destruct (Z.ltb_spec p 0); [lia | reflexivity].
Qed.

(** ** Reading the text back *)












Lemma string_app_empty_r (s : string) : (s ++ "")%string = s.
Proof. induction s as [|c s IH]; cbn; [reflexivity | now rewrite IH]. Qed.



(** ** The whole call *)

Lemma approx_run (quad : (list Qc -> list Qc) -> Qc -> Qc -> Qc * Qc)
    (f : list Qc -> list Qc) (a b : Qc) (n_node p : Z) (log : list event)
    (sum : Qc) :
  Z.odd n_node = true -> (3 <= n_node)%Z -> (0 <= p)%Z ->
  let nodes := map (node a b n_node) (range n_node) in
  let result := fst (quad f a b) in
  loop_form (f nodes) a b n_node = inr sum ->
  approx quad f a b n_node p log
  = (inr tt,
     (log ++ EvLinspace a b n_node :: EvCall nodes :: EvQuad a b
        :: EvPrint (ljust "Python calculated:" 20 ++ fixed_text result p)
        :: EvPrint (ljust "We calculated:" 20 ++ fixed_text sum p)
        :: EvPrint (ljust "Difference is" 20
                    ++ fixed_text (Qcabs (result - sum)) p)
        :: nil)%list).
Proof.
  intros Hodd Hge Hp nodes result Hloop.
  unfold approx. unfold bind at 1.
  rewrite approx_sum_run by assumption. fold nodes. rewrite Hloop.
  unfold integrate_quad, print.
  unfold bind, lift, emit, ret. cbn [fst]. fold result.
  rewrite !format_f_ok by exact Hp.
  rewrite <- !app_assoc. reflexivity.
Qed.

(** ** Actions that do not read the log *)

Lemma oblivious_ret {A} (x : A) : oblivious (ret x).
Proof. exists (inr x), nil. intros log. unfold ret. now rewrite app_nil_r. Qed.

Lemma oblivious_raise {A} (e : exn) : oblivious (@raise A e).
Proof. exists (inl e), nil. intros log. unfold raise. now rewrite app_nil_r. Qed.

Lemma oblivious_lift {A} (r : outcome A) : oblivious (lift r).
Proof. exists r, nil. intros log. unfold lift. now rewrite app_nil_r. Qed.

Lemma oblivious_emit (ev : event) : oblivious (emit ev).
Proof. exists (inr tt), (ev :: nil). intros log. reflexivity. Qed.

Lemma oblivious_bind {A B} (c : M A) (k : A -> M B) :
  oblivious c -> (forall x, oblivious (k x)) -> oblivious (bind c k).
Proof.
  intros [r [out Hc]] Hk. destruct r as [e|x].
  - exists (inl e), out. intros log. unfold bind. now rewrite Hc.
  - destruct (Hk x) as [r' [out' Hkx]].
    exists r', (out ++ out')%list. intros log. unfold bind.
    now rewrite Hc, Hkx, app_assoc.
Qed.

Create HintDb oblivious.
#[local] Hint Resolve oblivious_ret oblivious_raise oblivious_lift
  oblivious_emit : oblivious.

Ltac oblivious_step :=
  first [ apply oblivious_bind; [|intros ?] | solve [auto with oblivious] ].

Lemma oblivious_approx_sum (f : list Qc -> list Qc) (a b : Qc) (n_node : Z) :
  oblivious (approx_sum f a b n_node).
Proof.
  unfold approx_sum, np_linspace, call.
  destruct (Z.land n_node 1 =? 0)%Z; repeat oblivious_step.
Qed.

Lemma oblivious_approx (quad : (list Qc -> list Qc) -> Qc -> Qc -> Qc * Qc)
    (f : list Qc -> list Qc) (a b : Qc) (n_node p : Z) :
  oblivious (approx quad f a b n_node p).
Proof.
  unfold approx, integrate_quad, print.
  apply oblivious_bind; [apply oblivious_approx_sum | intros sum].
  repeat oblivious_step.
Qed.

(** ** Rejected node counts *)

Lemma approx_sum_even (f : list Qc -> list Qc) (a b : Qc) (n_node : Z)
    (log : list event) :
  Z.even n_node = true ->
  approx_sum f a b n_node log
  = (inl (ValueError "Number of nodes cannot be even."), log).
Proof.
  intros Heven. unfold approx_sum.
  rewrite land_1_odd, <- Z.negb_even, Heven. reflexivity.
Qed.

Lemma approx_sum_one (f : list Qc -> list Qc) (a b : Qc) (log : list event) :
  approx_sum f a b 1 log = (inl ZeroDivisionError, log).
Proof.
  unfold approx_sum. change (Z.land 1 1 =? 0)%Z with false. cbv iota.
  change ((1 - 1) / 2)%Z with 0%Z. unfold py_div.
  destruct (Qc_eq_dec (Z2Qc 0) 0) as [_|Hne]; [reflexivity|].
  exfalso. now apply Hne.
Qed.

(** * The claims *)

(** C1.  For every odd [n_node >= 3], all [a], [b] and every function [g]
    applied node by node, the value [approx] computes for its local [sum]
    is the composite Simpson formula: with [n = (n_node - 1) / 2] and
    [h = (b - a) / n], it is [h / 6] times the sum over [i] in [[0, n - 1]]
    of [values[2i] + 4 * values[2i+1] + values[2i+2]], where
    [values[j] = g (node[j])]. *)
Theorem approx_composite_simpson (g : Qc -> Qc) (a b : Qc) (n_node : Z)
    (log : list event) :
  Z.odd n_node = true -> (3 <= n_node)%Z ->
  fst (approx_sum (ufunc g) a b n_node log)
  = inr (simpson_formula g a b n_node).
Proof.
  intros Hodd Hge. rewrite approx_sum_run by assumption. cbn [fst].
  now apply loop_form_formula.
Qed.

Lemma approx_composite_simpson_witness :
  Z.odd 5 = true /\ (3 <= 5)%Z
  /\ fst (approx_sum (ufunc cube) 0 1 5 nil) = inr (simpson_formula cube 0 1 5).
Proof.
  split; [reflexivity|]. split; [lia|].
  apply (approx_composite_simpson cube 0 1 5 nil); [reflexivity | lia].
Defined.

(** C2.  Over exact rational arithmetic, for every polynomial of degree at
    most 3, all bounds and every odd [n_node >= 3], the Simpson estimate of
    [approx] equals the analytic integral; in particular for [x^3] on
    [[0, 1]] with 3 nodes it is [1/4]. *)
Theorem simpson_exact_for_cubics (c0 c1 c2 c3 a b : Qc) (n_node : Z)
    (log : list event) :
  Z.odd n_node = true -> (3 <= n_node)%Z ->
  fst (approx_sum (ufunc (cubic c0 c1 c2 c3)) a b n_node log)
  = inr (cubic_integral c0 c1 c2 c3 a b)
  /\ fst (approx_sum (ufunc cube) 0 1 3 log) = inr (Z2Qc 1 / Z2Qc 4).
Proof.
  intros Hodd Hge. split.
  - rewrite approx_sum_run by assumption. cbn [fst].
    rewrite loop_form_formula by assumption.
    now rewrite simpson_formula_cubic.
  - rewrite approx_sum_run by (reflexivity || lia). cbn [fst].
    rewrite loop_form_formula by (reflexivity || lia).
    f_equal. apply Qc_is_canon. vm_compute. reflexivity.
Qed.

Lemma simpson_exact_for_cubics_witness :
  Z.odd 7 = true /\ (3 <= 7)%Z
  /\ fst (approx_sum (ufunc (cubic 1 0 (Z2Qc 3) (Z2Qc 2))) (Z2Qc (-1))
             (Z2Qc 2) 7 nil)
     = inr (cubic_integral 1 0 (Z2Qc 3) (Z2Qc 2) (Z2Qc (-1)) (Z2Qc 2)).
Proof.
  split; [reflexivity|]. split; [lia|].
  apply (simpson_exact_for_cubics 1 0 (Z2Qc 3) (Z2Qc 2) (Z2Qc (-1)) (Z2Qc 2)
           7 nil); [reflexivity | lia].
Defined.

(** C3.  For every even [n_node], whatever [a], [b], [f] and [p], [approx]
    raises the node-count [ValueError] at once: the log is left as it was,
    so [linspace] was not called, [f] was not evaluated and nothing was
    printed. *)
Theorem even_node_count_rejected
    (quad : (list Qc -> list Qc) -> Qc -> Qc -> Qc * Qc)
    (f : list Qc -> list Qc) (a b : Qc) (n_node p : Z) (log : list event) :
  Z.even n_node = true ->
  approx quad f a b n_node p log
  = (inl (ValueError "Number of nodes cannot be even."), log).
Proof.
  intros Heven. unfold approx, bind.
  now rewrite approx_sum_even.
Qed.

Lemma even_node_count_rejected_witness :
  Z.even 50 = true
  /\ approx quad_trapezoid (ufunc cube) 0 1 50 10 nil
     = (inl (ValueError "Number of nodes cannot be even."), nil).
Proof.
  split; [reflexivity|].
  apply (even_node_count_rejected quad_trapezoid (ufunc cube) 0 1 50 10 nil).
  reflexivity.
Defined.

(** C4.  With [n_node = 1] the active code passes the parity check, gets
    [n = 0] and raises [ZeroDivisionError] at [h = (b - a) / n]; no
    node-count [ValueError] is raised. *)
Theorem one_node_zero_division
    (quad : (list Qc -> list Qc) -> Qc -> Qc -> Qc * Qc)
    (f : list Qc -> list Qc) (a b : Qc) (p : Z) (log : list event) :
  approx quad f a b 1 p log = (inl ZeroDivisionError, log).
Proof.
  unfold approx, bind. now rewrite approx_sum_one.
Qed.

(** C5.  For every odd [n_node >= 3] and all [a], [b] (in particular
    [a < b]), [approx] builds one node set with [linspace] and evaluates [f]
    once, on that set: it has [n_node] entries, starts at [a], ends at [b],
    entry [i] is [a + i * (b - a) / (n_node - 1)] for every [i] in
    [[0, n_node - 1]], entry [i] of the values is [g] at node [i], and these
    values are the ones reduced. *)
Theorem nodes_evenly_spaced (g : Qc -> Qc) (a b : Qc) (n_node : Z)
    (log : list event) :
  Z.odd n_node = true -> (3 <= n_node)%Z ->
  exists nodes : list Qc,
    snd (approx_sum (ufunc g) a b n_node log)
    = (log ++ EvLinspace a b n_node :: EvCall nodes :: nil)%list
    /\ fst (approx_sum (ufunc g) a b n_node log)
       = loop_form (ufunc g nodes) a b n_node
    /\ Z.of_nat (List.length nodes) = n_node
    /\ Z.of_nat (List.length (ufunc g nodes)) = n_node
    /\ getitem nodes 0 = inr a
    /\ getitem nodes (n_node - 1) = inr b
    /\ forall i, (0 <= i <= n_node - 1)%Z ->
         getitem nodes i = inr (a + Z2Qc i * (b - a) / Z2Qc (n_node - 1))
         /\ getitem (ufunc g nodes) i
            = inr (g (a + Z2Qc i * (b - a) / Z2Qc (n_node - 1))).
Proof.
  intros Hodd Hge. exists (map (node a b n_node) (range n_node)).
  rewrite approx_sum_run by assumption. cbn [fst snd].
  assert (Hlen : Z.of_nat (List.length (map (node a b n_node) (range n_node)))
                 = n_node) by (apply nodes_length; lia).
  assert (Hlen' : Z.of_nat (List.length
                    (ufunc g (map (node a b n_node) (range n_node))))
                  = n_node) by (unfold ufunc; now rewrite length_map).
  repeat split; try assumption.
  - rewrite getitem_in_range, nodes_entry by lia. now rewrite node_first.
  - rewrite getitem_in_range, nodes_entry by lia. now rewrite node_last by lia.
  - rewrite getitem_in_range, nodes_entry by lia. reflexivity.
  - rewrite getitem_in_range, ufunc_nodes_entry by lia. reflexivity.
Qed.

Lemma nodes_evenly_spaced_witness :
  Z.odd 9 = true /\ (3 <= 9)%Z
  /\ exists nodes : list Qc,
    snd (approx_sum (ufunc cube) 0 1 9 nil)
    = (nil ++ EvLinspace 0 1 9 :: EvCall nodes :: nil)%list
    /\ fst (approx_sum (ufunc cube) 0 1 9 nil)
       = loop_form (ufunc cube nodes) 0 1 9
    /\ Z.of_nat (List.length nodes) = 9%Z
    /\ Z.of_nat (List.length (ufunc cube nodes)) = 9%Z
    /\ getitem nodes 0 = inr 0
    /\ getitem nodes (9 - 1) = inr 1
    /\ forall i, (0 <= i <= 9 - 1)%Z ->
         getitem nodes i = inr (0 + Z2Qc i * (1 - 0) / Z2Qc (9 - 1))
         /\ getitem (ufunc cube nodes) i
            = inr (cube (0 + Z2Qc i * (1 - 0) / Z2Qc (9 - 1))).
Proof.
  split; [reflexivity|]. split; [lia|].
  apply (nodes_evenly_spaced cube 0 1 9 nil); [reflexivity | lia].
Defined.

(** C6.  For every odd [n_node >= 3], all [a], [b] and every sequence of
    [n_node] values, the loop form [(h / 6) * sum over the double
    subintervals], [h = (b - a) / n], and the vectorised form
    [(h / 3) * (values[0] + 4 * sum of the odd entries
                + 2 * sum of the even interior entries + values[-1])],
    [h = (b - a) / (n_node - 1)], both return, and return the same
    number. *)
Theorem loop_form_eq_vectorized_form (values : list Qc) (a b : Qc)
    (n_node : Z) :
  Z.odd n_node = true -> (3 <= n_node)%Z ->
  Z.of_nat (List.length values) = n_node ->
  exists s : Qc,
    loop_form values a b n_node = inr s
    /\ vectorized_form values a b n_node = inr s.
Proof.
  intros Hodd Hge Hlen. destruct (odd_count n_node Hodd Hge) as [Hn Hn1].
  rewrite loop_form_sum by assumption.
  eexists. split; [reflexivity|].
  set (n := ((n_node - 1) / 2)%Z) in *.
  destruct (Z.to_nat n) as [|k] eqn:Ek; [lia|].
  assert (Hnk : n = Z.of_nat (S k)) by lia.
  rewrite Hn, Hnk. rewrite vectorized_form_sum by lia.
  f_equal. unfold sum_range. rewrite Nat2Z.id.
  assert (Hd : Z2Qc (Z.of_nat (S k)) <> 0) by (apply Z2Qc_neq0; lia).
  rewrite (Z2Qc_mul 2). generalize dependent (Z2Qc (Z.of_nat (S k))).
  intros d Hd. qc_field.
Qed.

Lemma loop_form_eq_vectorized_form_witness :
  Z.odd 5 = true /\ (3 <= 5)%Z
  /\ Z.of_nat (List.length (1 :: Z2Qc 4 :: Z2Qc 9 :: Z2Qc 16 :: Z2Qc 25 :: nil))
     = 5%Z
  /\ exists s : Qc,
    loop_form (1 :: Z2Qc 4 :: Z2Qc 9 :: Z2Qc 16 :: Z2Qc 25 :: nil) 0 (Z2Qc 2) 5
    = inr s
    /\ vectorized_form (1 :: Z2Qc 4 :: Z2Qc 9 :: Z2Qc 16 :: Z2Qc 25 :: nil)
         0 (Z2Qc 2) 5 = inr s.
Proof.
  split; [reflexivity|]. split; [lia|]. split; [reflexivity|].
  apply (loop_form_eq_vectorized_form
           (1 :: Z2Qc 4 :: Z2Qc 9 :: Z2Qc 16 :: Z2Qc 25 :: nil) 0 (Z2Qc 2) 5);
    [reflexivity | lia | reflexivity].
Defined.


(** C9.  For every odd [n_node >= 3] and every sequence of [n_node] values,
    each index the summation loop uses is within the sequence: for every
    [i] in [[0, n - 1]], [n = (n_node - 1) / 2], the indices [2i], [2i+1]
    and [2i+2] lie in [[0, n_node - 1]] and the three look-ups return
    entries, so the loop ends without [IndexError]. *)
Theorem loop_indices_in_bounds (values : list Qc) (n_node : Z) :
  Z.odd n_node = true -> (3 <= n_node)%Z ->
  Z.of_nat (List.length values) = n_node ->
  let n := ((n_node - 1) / 2)%Z in
  (forall i, In i (range n) ->
     (0 <= i <= n - 1)%Z
     /\ (0 <= 2 * i /\ 2 * i + 2 <= n_node - 1)%Z
     /\ exists v0 v1 v2 : Qc,
          getitem values (2 * i) = inr v0
          /\ getitem values (2 * i + 1) = inr v1
          /\ getitem values (2 * i + 2) = inr v2)
  /\ exists s : Qc, simpson_loop values n = inr s.
Proof.
  intros Hodd Hge Hlen n. destruct (odd_count n_node Hodd Hge) as [Hn Hn1].
  fold n in Hn, Hn1. split.
  - intros i Hi. apply In_range in Hi.
    split; [lia|]. split; [lia|].
    exists (entry values (2 * i)), (entry values (2 * i + 1)),
      (entry values (2 * i + 2)).
    repeat split; apply getitem_in_range; lia.
  - exists (sum_to (Z.to_nat n) (panel (entry values))).
    replace n with (Z.of_nat (Z.to_nat n)) at 1 by lia.
    apply simpson_loop_sum. lia.
Qed.

Lemma loop_indices_in_bounds_witness :
  Z.odd 3 = true /\ (3 <= 3)%Z
  /\ Z.of_nat (List.length (0 :: 1 :: Z2Qc 2 :: nil)) = 3%Z
  /\ (forall i, In i (range ((3 - 1) / 2)) ->
        (0 <= i <= (3 - 1) / 2 - 1)%Z
        /\ (0 <= 2 * i /\ 2 * i + 2 <= 3 - 1)%Z
        /\ exists v0 v1 v2 : Qc,
             getitem (0 :: 1 :: Z2Qc 2 :: nil) (2 * i) = inr v0
             /\ getitem (0 :: 1 :: Z2Qc 2 :: nil) (2 * i + 1) = inr v1
             /\ getitem (0 :: 1 :: Z2Qc 2 :: nil) (2 * i + 2) = inr v2)
  /\ exists s : Qc,
       simpson_loop (0 :: 1 :: Z2Qc 2 :: nil) ((3 - 1) / 2) = inr s.
Proof.
  split; [reflexivity|]. split; [lia|]. split; [reflexivity|].
  apply (loop_indices_in_bounds (0 :: 1 :: Z2Qc 2 :: nil) 3);
    [reflexivity | lia | reflexivity].
Defined.





(** The commented variant, for comparison with C4: with one node and
    [a < b] it raises its own [ValueError] before calling anything. *)
Lemma approx_vectorized_one
    (quad : (list Qc -> list Qc) -> Qc -> Qc -> Qc * Qc)
    (f : list Qc -> list Qc) (a b : Qc) (log : list event) :
  a < b ->
  approx_vectorized quad f a b 1 log
  = (inl (ValueError "Number of nodes must be greater than 1."), log).
Proof.
  intros Hab. unfold approx_vectorized.
  pose proof (proj1 (Qclt_alt a b) Hab) as E. rewrite E. reflexivity.
Qed.

(** * Further properties of the code *)

(** ** Which node counts the active code accepts *)

(** An odd negative node count passes the parity test and the division;
    the failure then comes from [linspace]. *)
Lemma approx_sum_negative (f : list Qc -> list Qc) (a b : Qc) (n_node : Z)
    (log : list event) :
  Z.odd n_node = true -> (n_node < 0)%Z ->
  approx_sum f a b n_node log
  = (inl (ValueError ("Number of samples, " ++ Z_string n_node
                      ++ ", must be non-negative.")),
     (log ++ EvLinspace a b n_node :: nil)%list).
Proof.
  intros Hodd Hneg. unfold approx_sum. rewrite land_1_odd, Hodd. cbn [negb].
  assert (Hn : ((n_node - 1) / 2 < 0)%Z)
    by (apply Z.div_lt_upper_bound; lia).
  rewrite py_div_ok by (apply Z2Qc_neq0; lia).
  unfold np_linspace. unfold bind, lift, emit. unfold linspace.
  destruct (Z.ltb_spec n_node 0); [reflexivity | lia].
Qed.



(** X2.  For an odd negative [n_node] the active [approx] fails inside
    [linspace], with numpy's [ValueError] on the sample count: [linspace]
    is the only call made, [f] is not evaluated and nothing is printed. *)
Theorem negative_node_count_fails_in_linspace
    (quad : (list Qc -> list Qc) -> Qc -> Qc -> Qc * Qc)
    (f : list Qc -> list Qc) (a b : Qc) (n_node p : Z) (log : list event) :
  Z.odd n_node = true -> (n_node < 0)%Z ->
  approx quad f a b n_node p log
  = (inl (ValueError ("Number of samples, " ++ Z_string n_node
                      ++ ", must be non-negative.")),
     (log ++ EvLinspace a b n_node :: nil)%list).
Proof.
  intros Hodd Hneg. unfold approx, bind.
  now rewrite approx_sum_negative.
Qed.

Lemma negative_node_count_fails_in_linspace_witness :
  Z.odd (-3) = true /\ (-3 < 0)%Z
  /\ approx quad_trapezoid (ufunc cube) 0 1 (-3) 10 nil
     = (inl (ValueError ("Number of samples, " ++ Z_string (-3)
                         ++ ", must be non-negative.")),
        (nil ++ EvLinspace 0 1 (-3) :: nil)%list).
Proof.
  split; [reflexivity|]. split; [lia|].
  apply (negative_node_count_fails_in_linspace quad_trapezoid (ufunc cube)
           0 1 (-3) 10 nil); [reflexivity | lia].
Defined.

(** X3.  With a negative precision the active [approx] does all of its
    computing (the node set, the values, the reference quadrature) and then
    fails at the first f-string with [ValueError]: no line is printed. *)
Theorem negative_precision_prints_nothing
    (quad : (list Qc -> list Qc) -> Qc -> Qc -> Qc * Qc)
    (g : Qc -> Qc) (a b : Qc) (n_node p : Z) (log : list event) :
  Z.odd n_node = true -> (3 <= n_node)%Z -> (p < 0)%Z ->
  approx quad (ufunc g) a b n_node p log
  = (inl (ValueError "Format specifier missing precision"),
     (log ++ EvLinspace a b n_node
        :: EvCall (map (node a b n_node) (range n_node))
        :: EvQuad a b :: nil)%list).
Proof.
  intros Hodd Hge Hp. unfold approx. unfold bind at 1.
  rewrite approx_sum_run by assumption.
  rewrite loop_form_formula by assumption.
  unfold integrate_quad. unfold bind, lift, emit, ret, format_f.
  destruct (Z.ltb_spec p 0); [|lia].
  rewrite <- app_assoc. reflexivity.
Qed.

Lemma negative_precision_prints_nothing_witness :
  Z.odd 3 = true /\ (3 <= 3)%Z /\ (-1 < 0)%Z
  /\ approx quad_trapezoid (ufunc cube) 0 1 3 (-1) nil
     = (inl (ValueError "Format specifier missing precision"),
        (nil ++ EvLinspace 0 1 3
           :: EvCall (map (node 0 1 3) (range 3))
           :: EvQuad 0 1 :: nil)%list).
Proof.
  split; [reflexivity|]. split; [lia|]. split; [lia|].
  apply (negative_precision_prints_nothing quad_trapezoid cube 0 1 3 (-1) nil);
    [reflexivity | lia | lia].
Defined.

(** ** Value sequences of the wrong length *)

Lemma getitem_error (l : list Qc) (j : Z) (e : exn) :
  getitem l j = inl e -> e = IndexError.
Proof.
  unfold getitem.
  destruct (_ || _)%bool; [congruence|].
  destruct (nth_error l _); congruence.
Qed.

Lemma getitem_beyond (l : list Qc) (j : Z) :
  (Z.of_nat (List.length l) <= j)%Z -> getitem l j = inl IndexError.
Proof.
  intros Hj. unfold getitem.
  destruct (Z.ltb_spec j 0); [lia|].
  destruct (Z.leb_spec (Z.of_nat (List.length l)) j); [|lia].
  now rewrite orb_true_r.
Qed.

(** The only exception of the loop is [IndexError]. *)
Lemma simpson_loop_error (values : list Qc) (k : nat) (e : exn) :
  simpson_loop values (Z.of_nat k) = inl e -> e = IndexError.
Proof.
  unfold simpson_loop. induction k as [|k IH].
  - discriminate.
  - rewrite range_S, for_each_app.
    destruct (for_each _ (range (Z.of_nat k)) 0) as [e'|s].
    + cbn [rbind]. intros H. apply IH. congruence.
    + cbn [rbind for_each].
      destruct (getitem values (2 * Z.of_nat k)) as [e0|v0] eqn:E0;
        cbn [rbind]; [intros H; injection H as <-; eapply getitem_error, E0|].
      destruct (getitem values (2 * Z.of_nat k + 1)) as [e1|v1] eqn:E1;
        cbn [rbind]; [intros H; injection H as <-; eapply getitem_error, E1|].
      destruct (getitem values (2 * Z.of_nat k + 2)) as [e2|v2] eqn:E2;
        cbn [rbind]; [intros H; injection H as <-; eapply getitem_error, E2|].
      discriminate.
Qed.

(** A sequence too short for the last double subinterval makes the loop
    raise [IndexError]. *)
Lemma simpson_loop_short (values : list Qc) (k : nat) :
  (Z.of_nat (List.length values) < 2 * Z.of_nat (S k) + 1)%Z ->
  simpson_loop values (Z.of_nat (S k)) = inl IndexError.
Proof.
  intros Hlen.
  destruct (simpson_loop values (Z.of_nat (S k))) as [e|s] eqn:E.
  - f_equal. eapply simpson_loop_error, E.
  - exfalso. unfold simpson_loop in E. rewrite range_S, for_each_app in E.
    destruct (for_each _ (range (Z.of_nat k)) 0) as [e'|s'];
      cbn [rbind for_each] in E; [discriminate|].
    rewrite (getitem_beyond values (2 * Z.of_nat k + 2)) in E by lia.
    destruct (getitem values (2 * Z.of_nat k)); cbn [rbind] in E;
      [discriminate|].
    destruct (getitem values (2 * Z.of_nat k + 1)); cbn [rbind] in E;
      discriminate.
Qed.

(** X4.  If [f] returns fewer values than there are nodes, the active
    [approx] raises [IndexError] in its loop: the reference quadrature is
    not called and nothing is printed. *)
Theorem short_values_index_error
    (quad : (list Qc -> list Qc) -> Qc -> Qc -> Qc * Qc)
    (f : list Qc -> list Qc) (a b : Qc) (n_node p : Z) (log : list event) :
  Z.odd n_node = true -> (3 <= n_node)%Z ->
  (Z.of_nat (List.length (f (map (node a b n_node) (range n_node))))
   < n_node)%Z ->
  approx quad f a b n_node p log
  = (inl IndexError,
     (log ++ EvLinspace a b n_node
        :: EvCall (map (node a b n_node) (range n_node)) :: nil)%list).
Proof.
  intros Hodd Hge Hlen. destruct (odd_count n_node Hodd Hge) as [Hn Hn1].
  unfold approx. unfold bind at 1. rewrite approx_sum_run by assumption.
  unfold loop_form. rewrite py_div_ok by (apply Z2Qc_neq0; lia).
  cbn [rbind].
  destruct (Z.to_nat ((n_node - 1) / 2)) as [|k] eqn:Ek; [lia|].
  replace ((n_node - 1) / 2)%Z with (Z.of_nat (S k)) by lia.
  rewrite simpson_loop_short by lia. reflexivity.
Qed.

Lemma short_values_index_error_witness :
  Z.odd 5 = true /\ (3 <= 5)%Z
  /\ (Z.of_nat (List.length (removelast (map (node 0 1 5) (range 5)))) < 5)%Z
  /\ approx quad_trapezoid (@removelast Qc) 0 1 5 10 nil
     = (inl IndexError,
        (nil ++ EvLinspace 0 1 5
           :: EvCall (map (node 0 1 5) (range 5)) :: nil)%list).
Proof.
  split; [reflexivity|]. split; [lia|]. split; [reflexivity|].
  apply (short_values_index_error quad_trapezoid (@removelast Qc) 0 1 5 10 nil);
    [reflexivity | lia | reflexivity].
Defined.

(** ** The estimate as a function of the integrand and of the bounds *)

Lemma panel_linear (al be : Qc) (V W : Z -> Qc) (i : Z) :
  panel (fun j => al * V j + be * W j) i = al * panel V i + be * panel W i.
Proof. unfold panel. ring. Qed.

Lemma sum_to_linear (al be : Qc) (F G : Z -> Qc) (k : nat) :
  sum_to k (fun i => al * F i + be * G i)
  = al * sum_to k F + be * sum_to k G.
Proof.
  induction k as [|k IH]; cbn [sum_to]; [ring | rewrite IH; ring].
Qed.

Lemma simpson_formula_linear (al be : Qc) (g1 g2 : Qc -> Qc) (a b : Qc)
    (n_node : Z) :
  simpson_formula (fun x => al * g1 x + be * g2 x) a b n_node
  = al * simpson_formula g1 a b n_node + be * simpson_formula g2 a b n_node.
Proof.
  unfold simpson_formula, sum_range.
  rewrite (sum_to_ext _ _ (fun i =>
             al * panel (fun j => g1 (node a b n_node j)) i
             + be * panel (fun j => g2 (node a b n_node j)) i))
    by (intros i _; apply panel_linear).
  rewrite sum_to_linear. ring.
Qed.

(** X5.  The estimate of the active code is linear in the integrand: for
    an odd [n_node >= 3] the estimate of [al * g1 + be * g2] is [al] times
    the estimate of [g1] plus [be] times the estimate of [g2]. *)
Theorem estimate_linear (al be : Qc) (g1 g2 : Qc -> Qc) (a b : Qc)
    (n_node : Z) (log : list event) :
  Z.odd n_node = true -> (3 <= n_node)%Z ->
  exists s1 s2 : Qc,
    fst (approx_sum (ufunc g1) a b n_node log) = inr s1
    /\ fst (approx_sum (ufunc g2) a b n_node log) = inr s2
    /\ fst (approx_sum (ufunc (fun x => al * g1 x + be * g2 x)) a b n_node log)
       = inr (al * s1 + be * s2).
Proof.
  intros Hodd Hge.
  exists (simpson_formula g1 a b n_node), (simpson_formula g2 a b n_node).
  rewrite !approx_sum_run by assumption. cbn [fst].
  rewrite !loop_form_formula by assumption.
  repeat split. f_equal. apply simpson_formula_linear.
Qed.

Lemma estimate_linear_witness :
  Z.odd 5 = true /\ (3 <= 5)%Z
  /\ exists s1 s2 : Qc,
    fst (approx_sum (ufunc cube) 0 1 5 nil) = inr s1
    /\ fst (approx_sum (ufunc (cubic 1 1 0 0)) 0 1 5 nil) = inr s2
    /\ fst (approx_sum
              (ufunc (fun x => Z2Qc 2 * cube x + Z2Qc 3 * cubic 1 1 0 0 x))
              0 1 5 nil)
       = inr (Z2Qc 2 * s1 + Z2Qc 3 * s2).
Proof.
  split; [reflexivity|]. split; [lia|].
  apply (estimate_linear (Z2Qc 2) (Z2Qc 3) cube (cubic 1 1 0 0) 0 1 5 nil);
    [reflexivity | lia].
Defined.

Lemma Qc_mul_nonneg (x y : Qc) : 0 <= x -> 0 <= y -> 0 <= x * y.
Proof.
  intros Hx Hy. rewrite <- (Qcmult_0_l y). now apply Qcmult_le_compat_r.
Qed.

Lemma Qc_inv_nonneg (x : Qc) : 0 <= x -> 0 <= / x.
Proof.
  unfold Qcle, Qcinv. cbn [this Q2Qc]. intros Hx.
  rewrite (Qred_correct (/ x)). change (Qred 0) with 0%Q in *.
  now apply Qinv_le_0_compat.
Qed.

Lemma Qc_mul_le_l (c x y : Qc) : 0 <= c -> x <= y -> c * x <= c * y.
Proof.
  intros Hc Hxy. rewrite (Qcmult_comm c x), (Qcmult_comm c y).
  now apply Qcmult_le_compat_r.
Qed.

Lemma sum_to_le (k : nat) (F G : Z -> Qc) :
  (forall i, (0 <= i < Z.of_nat k)%Z -> F i <= G i) ->
  sum_to k F <= sum_to k G.
Proof.
  induction k as [|k IH]; intros H; cbn [sum_to].
  - apply Qcle_refl.
  - apply Qcplus_le_compat; [apply IH; intros i Hi; apply H; lia|].
    apply H. lia.
Qed.

Lemma simpson_formula_le (g1 g2 : Qc -> Qc) (a b : Qc) (n_node : Z) :
  Z.odd n_node = true -> (3 <= n_node)%Z -> a <= b ->
  (forall j, (0 <= j <= n_node - 1)%Z ->
     g1 (node a b n_node j) <= g2 (node a b n_node j)) ->
  simpson_formula g1 a b n_node <= simpson_formula g2 a b n_node.
Proof.
  intros Hodd Hge Hab Hg. destruct (odd_count n_node Hodd Hge) as [Hn Hn1].
  unfold simpson_formula, sum_range. apply Qc_mul_le_l.
  - unfold Qcdiv. repeat apply Qc_mul_nonneg.
    + now apply Qcle_minus_iff in Hab.
    + apply Qc_inv_nonneg, Z2Qc_nonneg. lia.
    + apply Qc_inv_nonneg, Z2Qc_nonneg. lia.
  - apply sum_to_le. intros i Hi. unfold panel.
    repeat apply Qcplus_le_compat; try (apply Hg; lia).
    apply Qc_mul_le_l; [apply Z2Qc_nonneg; lia | apply Hg; lia].
Qed.

(** X6.  The estimate of the active code is monotone in the integrand when
    [a <= b]: if [g1 <= g2] at every node then the estimate of [g1] is at
    most the estimate of [g2] (all Simpson weights are positive). *)
Theorem estimate_monotone (g1 g2 : Qc -> Qc) (a b : Qc) (n_node : Z)
    (log : list event) :
  Z.odd n_node = true -> (3 <= n_node)%Z -> a <= b ->
  (forall j, (0 <= j <= n_node - 1)%Z ->
     g1 (node a b n_node j) <= g2 (node a b n_node j)) ->
  exists s1 s2 : Qc,
    fst (approx_sum (ufunc g1) a b n_node log) = inr s1
    /\ fst (approx_sum (ufunc g2) a b n_node log) = inr s2
    /\ s1 <= s2.
Proof.
  intros Hodd Hge Hab Hg.
  exists (simpson_formula g1 a b n_node), (simpson_formula g2 a b n_node).
  rewrite !approx_sum_run by assumption. cbn [fst].
  rewrite !loop_form_formula by assumption.
  repeat split. now apply simpson_formula_le.
Qed.

Lemma estimate_monotone_witness :
  Z.odd 3 = true /\ (3 <= 3)%Z /\ 0 <= 1
  /\ (forall j, (0 <= j <= 3 - 1)%Z ->
        cube (node 0 1 3 j) <= (fun x => x) (node 0 1 3 j))
  /\ exists s1 s2 : Qc,
    fst (approx_sum (ufunc cube) 0 1 3 nil) = inr s1
    /\ fst (approx_sum (ufunc (fun x => x)) 0 1 3 nil) = inr s2
    /\ s1 <= s2.
Proof.
  assert (Hnodes : forall j, (0 <= j <= 3 - 1)%Z ->
            cube (node 0 1 3 j) <= (fun x => x) (node 0 1 3 j)).
  { intros j Hj.
    assert (Hc : j = 0%Z \/ j = 1%Z \/ j = 2%Z) by lia.
    destruct Hc as [->|[->| ->]]; vm_compute; discriminate. }
  split; [reflexivity|]. split; [lia|].
  split; [vm_compute; discriminate|]. split; [exact Hnodes|].
  apply (estimate_monotone cube (fun x => x) 0 1 3 nil);
    [reflexivity | lia | vm_compute; discriminate | exact Hnodes].
Defined.

(** ** Edge cases of the interval and of the node count *)

Lemma node_degenerate (a : Qc) (n_node j : Z) : node a a n_node j = a.
Proof. unfold node, Qcdiv. ring. Qed.

Lemma simpson_formula_degenerate (g : Qc -> Qc) (a : Qc) (n_node : Z) :
  simpson_formula g a a n_node = 0.
Proof. unfold simpson_formula, Qcdiv. ring. Qed.

(** X7.  On an interval of width zero ([a = b]) the active code does not
    fail: every node is [a], [f] is evaluated on [n_node] copies of [a],
    and the estimate is 0 whatever the integrand. *)
Theorem zero_width_interval (g : Qc -> Qc) (a : Qc) (n_node : Z)
    (log : list event) :
  Z.odd n_node = true -> (3 <= n_node)%Z ->
  approx_sum (ufunc g) a a n_node log
  = (inr 0,
     (log ++ EvLinspace a a n_node
        :: EvCall (repeat a (Z.to_nat n_node)) :: nil)%list).
Proof.
  intros Hodd Hge. rewrite approx_sum_run by assumption.
  rewrite loop_form_formula, simpson_formula_degenerate by assumption.
  do 4 f_equal. unfold range. rewrite map_map.
  rewrite (map_ext _ (fun _ => a)) by (intros j; apply node_degenerate).
  assert (Hrep : forall (l : list nat),
            map (fun _ => a) l = repeat a (List.length l)).
  { induction l as [|x l IH]; cbn; [reflexivity | now rewrite IH]. }
  now rewrite Hrep, length_seq.
Qed.

Lemma zero_width_interval_witness :
  Z.odd 5 = true /\ (3 <= 5)%Z
  /\ approx_sum (ufunc cube) 1 1 5 nil
     = (inr 0,
        (nil ++ EvLinspace 1 1 5
           :: EvCall (repeat 1 (Z.to_nat 5)) :: nil)%list).
Proof.
  split; [reflexivity|]. split; [lia|].
  apply (zero_width_interval cube 1 5 nil); [reflexivity | lia].
Defined.

Lemma simpson_formula_three (g : Qc -> Qc) (a b : Qc) :
  simpson_formula g a b 3
  = (b - a) / Z2Qc 6 * (g a + Z2Qc 4 * g ((a + b) / Z2Qc 2) + g b).
Proof.
  unfold simpson_formula, sum_range.
  change ((3 - 1) / 2)%Z with 1%Z. change (Z.to_nat 1) with 1%nat.
  cbn [sum_to]. unfold panel.
  change (2 * Z.of_nat 0)%Z with 0%Z. change (0 + 1)%Z with 1%Z.
  change (0 + 2)%Z with (3 - 1)%Z.
  rewrite node_first, node_last by lia.
  replace (node a b 3 1) with ((a + b) / Z2Qc 2)
    by (unfold node; change (3 - 1)%Z with 2%Z; qc_field).
  qc_field.
Qed.

(** X8.  With the least accepted node count, [n_node = 3], the estimate of
    the active code is the basic Simpson rule on the two ends and the
    midpoint: [(b - a) / 6 * (g a + 4 * g ((a + b) / 2) + g b)]. *)
Theorem three_nodes_basic_rule (g : Qc -> Qc) (a b : Qc) (log : list event) :
  approx_sum (ufunc g) a b 3 log
  = (inr ((b - a) / Z2Qc 6 * (g a + Z2Qc 4 * g ((a + b) / Z2Qc 2) + g b)),
     (log ++ EvLinspace a b 3
        :: EvCall (a :: (a + b) / Z2Qc 2 :: b :: nil) :: nil)%list).
Proof.
  rewrite approx_sum_run by (reflexivity || lia).
  rewrite loop_form_formula, simpson_formula_three by (reflexivity || lia).
  do 3 f_equal.
  change (range 3) with (0%Z :: 1%Z :: (3 - 1)%Z :: nil). cbn [map].
  rewrite node_first, node_last by lia.
  replace (node a b 3 1) with ((a + b) / Z2Qc 2); [reflexivity|].
  unfold node. change (3 - 1)%Z with 2%Z. qc_field.
Qed.

(** ** The commented variant *)

Lemma vectorized_form_loop_form (values : list Qc) (a b : Qc) (n_node : Z) :
  Z.odd n_node = true -> (3 <= n_node)%Z ->
  Z.of_nat (List.length values) = n_node ->
  vectorized_form values a b n_node = loop_form values a b n_node.
Proof.
  intros Hodd Hge Hlen. destruct (odd_count n_node Hodd Hge) as [Hn Hn1].
  rewrite loop_form_sum by assumption.
  set (n := ((n_node - 1) / 2)%Z) in *.
  destruct (Z.to_nat n) as [|k] eqn:Ek; [lia|].
  assert (Hnk : n = Z.of_nat (S k)) by lia.
  rewrite Hn, Hnk. rewrite vectorized_form_sum by lia.
  f_equal. unfold sum_range. rewrite Nat2Z.id.
  assert (Hd : Z2Qc (Z.of_nat (S k)) <> 0) by (apply Z2Qc_neq0; lia).
  rewrite (Z2Qc_mul 2). generalize dependent (Z2Qc (Z.of_nat (S k))).
  intros d Hd. qc_field.
Qed.

Lemma approx_vectorized_run
    (quad : (list Qc -> list Qc) -> Qc -> Qc -> Qc * Qc)
    (g : Qc -> Qc) (a b : Qc) (n_node : Z) (log : list event) :
  a < b -> Z.odd n_node = true -> (3 <= n_node)%Z ->
  let exact := fst (quad (ufunc g) a b) in
  let simpson := simpson_formula g a b n_node in
  approx_vectorized quad (ufunc g) a b n_node log
  = (inr (simpson, exact, Qcabs (exact - simpson)),
     (log ++ EvLinspace a b n_node
        :: EvCall (map (node a b n_node) (range n_node))
        :: EvQuad a b :: nil)%list).
Proof.
  intros Hab Hodd Hge exact simpson. unfold approx_vectorized.
  pose proof (proj1 (Qclt_alt a b) Hab) as E. rewrite E.
  destruct (Z.leb_spec n_node 1); [lia|].
  rewrite land_1_odd, Hodd. cbn [negb].
  unfold np_linspace, call, integrate_quad. unfold bind, lift, emit, ret.
  rewrite linspace_nodes by lia.
  rewrite vectorized_form_loop_form; try assumption.
  2:{ unfold ufunc. rewrite length_map. apply nodes_length. lia. }
  rewrite loop_form_formula by assumption.
  cbn [fst]. rewrite <- !app_assoc. reflexivity.
Qed.

(** X9.  On arguments the commented variant accepts ([a < b], [n_node] odd
    and at least 3) it makes the same three calls as the active code and
    prints nothing; over exact arithmetic the estimate it returns is the
    one the active code computes (on binary64 numbers the two reductions
    agree only up to rounding), returned with the reference value and their
    absolute difference. *)
Theorem vectorized_agrees_with_active
    (quad : (list Qc -> list Qc) -> Qc -> Qc -> Qc * Qc)
    (g : Qc -> Qc) (a b : Qc) (n_node : Z) (log : list event) :
  a < b -> Z.odd n_node = true -> (3 <= n_node)%Z ->
  exists simpson : Qc,
    fst (approx_sum (ufunc g) a b n_node log) = inr simpson
    /\ approx_vectorized quad (ufunc g) a b n_node log
       = (inr (simpson, fst (quad (ufunc g) a b),
               Qcabs (fst (quad (ufunc g) a b) - simpson)),
          (snd (approx_sum (ufunc g) a b n_node log)
             ++ EvQuad a b :: nil)%list).
Proof.
  intros Hab Hodd Hge. exists (simpson_formula g a b n_node).
  rewrite approx_sum_run by assumption. cbn [fst snd].
  rewrite loop_form_formula by assumption. split; [reflexivity|].
  rewrite approx_vectorized_run by assumption.
  now rewrite <- app_assoc.
Qed.

Lemma vectorized_agrees_with_active_witness :
  0 < 1 /\ Z.odd 5 = true /\ (3 <= 5)%Z
  /\ exists simpson : Qc,
    fst (approx_sum (ufunc cube) 0 1 5 nil) = inr simpson
    /\ approx_vectorized quad_trapezoid (ufunc cube) 0 1 5 nil
       = (inr (simpson, fst (quad_trapezoid (ufunc cube) 0 1),
               Qcabs (fst (quad_trapezoid (ufunc cube) 0 1) - simpson)),
          (snd (approx_sum (ufunc cube) 0 1 5 nil)
             ++ EvQuad 0 1 :: nil)%list).
Proof.
  split; [reflexivity|]. split; [reflexivity|]. split; [lia|].
  apply (vectorized_agrees_with_active quad_trapezoid cube 0 1 5 nil);
    [reflexivity | reflexivity | lia].
Defined.

(** X10.  The commented variant returns normally exactly when [a < b] and
    [n_node] is odd and at least 3; every failure is a [ValueError] raised
    by its own checks before anything is called, so it never divides by
    zero and never indexes out of range. *)
Theorem vectorized_returns_iff
    (quad : (list Qc -> list Qc) -> Qc -> Qc -> Qc * Qc)
    (g : Qc -> Qc) (a b : Qc) (n_node : Z) (log : list event) :
  ((exists r, fst (approx_vectorized quad (ufunc g) a b n_node log) = inr r)
   <-> a < b /\ Z.odd n_node = true /\ (3 <= n_node)%Z)
  /\ (forall e, fst (approx_vectorized quad (ufunc g) a b n_node log) = inl e ->
        (exists msg, e = ValueError msg)
        /\ snd (approx_vectorized quad (ufunc g) a b n_node log) = log).
Proof.
  destruct (Qclt_le_dec a b) as [Hab|Hba].
  - destruct (Z.leb_spec n_node 1) as [Hle|Hgt].
    + assert (Hrun : approx_vectorized quad (ufunc g) a b n_node log
                     = (inl (ValueError
                               "Number of nodes must be greater than 1."),
                        log)).
      { unfold approx_vectorized.
        pose proof (proj1 (Qclt_alt a b) Hab) as E. rewrite E.
        destruct (Z.leb_spec n_node 1); [reflexivity | lia]. }
      rewrite Hrun. cbn [fst snd]. split.
      * split; [intros [r Hr]; discriminate Hr | intros (_ & _ & H); lia].
      * intros e He. injection He as <-. split; [eauto | reflexivity].
    + destruct (Z.odd n_node) eqn:Hodd.
      * assert (Hge : (3 <= n_node)%Z).
        { destruct (Z.eq_dec n_node 2) as [->|]; [discriminate Hodd | lia]. }
        rewrite approx_vectorized_run by assumption. cbn [fst snd]. split.
        -- split; [intros _; repeat split; assumption | intros _; eauto].
        -- intros e He. discriminate He.
      * assert (Hrun : approx_vectorized quad (ufunc g) a b n_node log
                       = (inl (ValueError "Number of nodes must be odd."),
                          log)).
        { unfold approx_vectorized.
          pose proof (proj1 (Qclt_alt a b) Hab) as E. rewrite E.
          destruct (Z.leb_spec n_node 1); [lia|].
          rewrite land_1_odd, Hodd. reflexivity. }
        rewrite Hrun. cbn [fst snd]. split.
        -- split; [intros [r Hr]; discriminate Hr
                  | intros (_ & H & _); discriminate H].
        -- intros e He. injection He as <-. split; [eauto | reflexivity].
  - assert (Hrun : approx_vectorized quad (ufunc g) a b n_node log
                   = (inl (ValueError
                             "Integration bounds must satisfy a < b."),
                      log)).
    { unfold approx_vectorized.
      destruct (a ?= b) eqn:E; try reflexivity.
      apply Qclt_alt in E. exfalso. now apply (Qcle_not_lt _ _ Hba). }
    rewrite Hrun. cbn [fst snd]. split.
    + split; [intros [r Hr]; discriminate Hr|].
      intros (H & _ & _). exfalso. now apply (Qcle_not_lt _ _ Hba).
    + intros e He. injection He as <-. split; [eauto | reflexivity].
Qed.

(** ** The printers *)

Lemma print_results_run (simpson_integral exact_integral difference : Qc)
    (precision : Z) (log : list event) :
  (0 <= precision)%Z ->
  print_results simpson_integral exact_integral difference precision log
  = (inr tt,
     (log
        ++ EvPrint (ljust "Python calculated:" 20
                    ++ fixed_text exact_integral precision)
        :: EvPrint (ljust "We calculated:" 20
                    ++ fixed_text simpson_integral precision)
        :: EvPrint (ljust "Difference is:" 20
                    ++ fixed_text difference precision)
        :: nil)%list).
Proof.
  intros Hp. unfold print_results, print.
  rewrite !format_f_ok by exact Hp.
  unfold bind, lift, emit. rewrite <- !app_assoc. reflexivity.
Qed.

(** X11.  Over exact arithmetic, on arguments both accept ([a < b],
    [n_node] odd and at least 3, precision [p >= 0]) the commented example,
    [approx] followed by [print_results], makes the same calls and prints
    the same first two lines as the active [approx]; the third lines carry
    the same number and differ only in the label, ["Difference is:"]
    against ["Difference is"].  (On binary64 numbers the two estimates can
    differ in the last place, and so can the digits printed.) *)
Theorem example_matches_active
    (quad : (list Qc -> list Qc) -> Qc -> Qc -> Qc * Qc)
    (g : Qc -> Qc) (a b : Qc) (n_node p : Z) (log : list event) :
  a < b -> Z.odd n_node = true -> (3 <= n_node)%Z -> (0 <= p)%Z ->
  exists (common : list event) (t3 : string),
    approx quad (ufunc g) a b n_node p log
    = (inr tt,
       (log ++ common ++ EvPrint ("Difference is       " ++ t3) :: nil)%list)
    /\ example_usage quad (ufunc g) a b n_node p log
       = (inr tt,
          (log ++ common ++ EvPrint ("Difference is:      " ++ t3) :: nil)%list).
Proof.
  intros Hab Hodd Hge Hp.
  set (exact := fst (quad (ufunc g) a b)).
  set (simpson := simpson_formula g a b n_node).
  exists (EvLinspace a b n_node
          :: EvCall (map (node a b n_node) (range n_node))
          :: EvQuad a b
          :: EvPrint (ljust "Python calculated:" 20 ++ fixed_text exact p)
          :: EvPrint (ljust "We calculated:" 20 ++ fixed_text simpson p)
          :: nil),
    (fixed_text (Qcabs (exact - simpson)) p).
  split.
  - rewrite (approx_run quad (ufunc g) a b n_node p log simpson);
      try assumption; [reflexivity | now apply loop_form_formula].
  - unfold example_usage, bind.
    rewrite approx_vectorized_run by assumption. cbn [fst snd].
    rewrite print_results_run by exact Hp.
    rewrite <- !app_assoc. reflexivity.
Qed.

Lemma example_matches_active_witness :
  0 < 1 /\ Z.odd 5 = true /\ (3 <= 5)%Z /\ (0 <= 4)%Z
  /\ exists (common : list event) (t3 : string),
    approx quad_trapezoid (ufunc cube) 0 1 5 4 nil
    = (inr tt,
       (nil ++ common ++ EvPrint ("Difference is       " ++ t3) :: nil)%list)
    /\ example_usage quad_trapezoid (ufunc cube) 0 1 5 4 nil
       = (inr tt,
          (nil ++ common ++ EvPrint ("Difference is:      " ++ t3) :: nil)%list).
Proof.
  split; [reflexivity|]. split; [reflexivity|]. split; [lia|]. split; [lia|].
  apply (example_matches_active quad_trapezoid cube 0 1 5 4 nil);
    [reflexivity | reflexivity | lia | lia].
Defined.

Lemma fixed_text_abs (x : Qc) (p : Z) :
  exists rest : string,
    fixed_text (Qcabs x) p
    = (nat_string
         (round_half_even (this (Qcabs (Qcabs x) * Z2Qc (10 ^ p))) / 10 ^ p)
       ++ rest)%string.
Proof.
  unfold fixed_text.
  destruct (Qcabs x ?= 0) eqn:E.
  - eexists. reflexivity.
  - exfalso. apply Qclt_alt in E.
    exact (Qcle_not_lt _ _ (Qcabs_nonneg x) E).
  - eexists. reflexivity.
Qed.

(** X12.  The difference line of the active [approx] never shows a sign:
    after the label the text starts with the digits of the integer part. *)
Theorem difference_line_unsigned
    (quad : (list Qc -> list Qc) -> Qc -> Qc -> Qc * Qc)
    (g : Qc -> Qc) (a b : Qc) (n_node p : Z) (log : list event) :
  Z.odd n_node = true -> (3 <= n_node)%Z -> (0 <= p)%Z ->
  exists (before : list event) (int_part rest : string),
    approx quad (ufunc g) a b n_node p log
    = (inr tt,
       (log ++ before
          ++ EvPrint ("Difference is       " ++ int_part ++ rest) :: nil)%list)
    /\ int_part <> ""%string
    /\ all_digits int_part = true.
Proof.
  intros Hodd Hge Hp.
  set (exact := fst (quad (ufunc g) a b)).
  set (simpson := simpson_formula g a b n_node).
  destruct (fixed_text_abs (exact - simpson) p) as [rest Hrest].
  exists (EvLinspace a b n_node
          :: EvCall (map (node a b n_node) (range n_node))
          :: EvQuad a b
          :: EvPrint (ljust "Python calculated:" 20 ++ fixed_text exact p)
          :: EvPrint (ljust "We calculated:" 20 ++ fixed_text simpson p)
          :: nil),
    (nat_string
       (round_half_even
          (this (Qcabs (Qcabs (exact - simpson)) * Z2Qc (10 ^ p))) / 10 ^ p)),
    rest.
  split; [|split; [apply nat_string_nonempty | apply nat_string_digits]].
  rewrite (approx_run quad (ufunc g) a b n_node p log simpson);
    try assumption; [| now apply loop_form_formula].
  fold exact. rewrite Hrest. reflexivity.
Qed.

Lemma difference_line_unsigned_witness :
  Z.odd 5 = true /\ (3 <= 5)%Z /\ (0 <= 3)%Z
  /\ exists (before : list event) (int_part rest : string),
    approx quad_trapezoid (ufunc cube) 1 0 5 3 nil
    = (inr tt,
       (nil ++ before
          ++ EvPrint ("Difference is       " ++ int_part ++ rest) :: nil)%list)
    /\ int_part <> ""%string
    /\ all_digits int_part = true.
Proof.
  split; [reflexivity|]. split; [lia|]. split; [lia|].
  apply (difference_line_unsigned quad_trapezoid cube 1 0 5 3 nil);
    [reflexivity | lia | lia].
Defined.

Lemma zeros_snoc (k : nat) :
  (zeros k ++ String "0" EmptyString)%string = String "0" (zeros k).
Proof.
  induction k as [|k IH]; cbn; [reflexivity | now rewrite IH].
Qed.

Lemma digits_fixed_zero (k : nat) : digits_fixed k 0 = zeros k.
Proof.
  induction k as [|k IH]; cbn [digits_fixed zeros]; [reflexivity|].
  change (0 / 10)%Z with 0%Z. rewrite IH.
  change (digit_char 0) with "0"%char. apply zeros_snoc.
Qed.

(** The text of zero: ["0"], then the point and [p] zeros. *)
Lemma fixed_text_zero (x : Qc) (p : Z) :
  (0 <= p)%Z ->
  fixed_text (Qcabs (x - x)) p
  = ("0" ++ (if (p =? 0)%Z then "" else "." ++ zeros (Z.to_nat p)))%string.
Proof.
  intros Hp. replace (x - x) with 0 by ring.
  rewrite (Qcabs_pos 0) by apply Qcle_refl.
  unfold fixed_text. rewrite (Qcabs_pos 0) by apply Qcle_refl.
  rewrite Qcmult_0_l.
  change (round_half_even (this 0)) with 0%Z.
  change (0 ?= 0) with Eq.
  rewrite Z.div_0_l by (apply Z.pow_nonzero; lia).
  rewrite digits_fixed_zero. reflexivity.
Qed.

(** X13.  When the integrand is a polynomial of degree at most 3 and the
    reference quadrature returns its exact integral, the difference line of
    the active [approx] reads zero at every precision [p >= 0]: ["0"],
    followed for [p > 0] by the point and [p] zeros. *)
Theorem exact_reference_zero_difference
    (quad : (list Qc -> list Qc) -> Qc -> Qc -> Qc * Qc)
    (c0 c1 c2 c3 a b : Qc) (n_node p : Z) (log : list event) :
  Z.odd n_node = true -> (3 <= n_node)%Z -> (0 <= p)%Z ->
  fst (quad (ufunc (cubic c0 c1 c2 c3)) a b) = cubic_integral c0 c1 c2 c3 a b ->
  exists before : list event,
    approx quad (ufunc (cubic c0 c1 c2 c3)) a b n_node p log
    = (inr tt,
       (log ++ before
          ++ EvPrint ("Difference is       0"
                      ++ (if (p =? 0)%Z then ""
                          else "." ++ zeros (Z.to_nat p))) :: nil)%list).
Proof.
  intros Hodd Hge Hp Hquad.
  set (I := cubic_integral c0 c1 c2 c3 a b) in *.
  exists (EvLinspace a b n_node
          :: EvCall (map (node a b n_node) (range n_node))
          :: EvQuad a b
          :: EvPrint (ljust "Python calculated:" 20 ++ fixed_text I p)
          :: EvPrint (ljust "We calculated:" 20 ++ fixed_text I p)
          :: nil).
  rewrite (approx_run quad (ufunc (cubic c0 c1 c2 c3)) a b n_node p log I);
    try assumption.
  - rewrite Hquad, fixed_text_zero by exact Hp. reflexivity.
  - rewrite loop_form_formula by assumption.
    now rewrite simpson_formula_cubic.
Qed.

Lemma exact_reference_zero_difference_witness :
  Z.odd 5 = true /\ (3 <= 5)%Z /\ (0 <= 10)%Z
  /\ fst (quad_trapezoid (ufunc (cubic 1 (Z2Qc 2) 0 0)) 0 1)
     = cubic_integral 1 (Z2Qc 2) 0 0 0 1
  /\ exists before : list event,
    approx quad_trapezoid (ufunc (cubic 1 (Z2Qc 2) 0 0)) 0 1 5 10 nil
    = (inr tt,
       (nil ++ before
          ++ EvPrint ("Difference is       0"
                      ++ (if (10 =? 0)%Z then ""
                          else "." ++ zeros (Z.to_nat 10))) :: nil)%list).
Proof.
  assert (Hq : fst (quad_trapezoid (ufunc (cubic 1 (Z2Qc 2) 0 0)) 0 1)
               = cubic_integral 1 (Z2Qc 2) 0 0 0 1)
    by (apply Qc_is_canon; vm_compute; reflexivity).
  split; [reflexivity|]. split; [lia|]. split; [lia|]. split; [exact Hq|].
  apply (exact_reference_zero_difference quad_trapezoid 1 (Z2Qc 2) 0 0 0 1
           5 10 nil); [reflexivity | lia | lia | exact Hq].
Defined.

(** ** Values beyond the node count *)

Lemma entry_app_l (l extra : list Qc) (j : Z) :
  (0 <= j < Z.of_nat (List.length l))%Z ->
  entry (l ++ extra) j = entry l j.
Proof.
  intros Hj. unfold entry. apply app_nth1. lia.
Qed.

Lemma loop_form_app (values extra : list Qc) (a b : Qc) (n_node : Z) :
  Z.odd n_node = true -> (3 <= n_node)%Z ->
  Z.of_nat (List.length values) = n_node ->
  loop_form (values ++ extra) a b n_node = loop_form values a b n_node.
Proof.
  intros Hodd Hge Hlen. destruct (odd_count n_node Hodd Hge) as [Hn Hn1].
  unfold loop_form. rewrite py_div_ok by (apply Z2Qc_neq0; lia).
  cbn [rbind].
  replace ((n_node - 1) / 2)%Z with (Z.of_nat (Z.to_nat ((n_node - 1) / 2)))
    by lia.
  rewrite !simpson_loop_sum by (rewrite ?length_app; lia).
  cbn [rbind]. do 2 f_equal. apply sum_to_ext. intros i Hi.
  unfold panel. rewrite !entry_app_l by lia. reflexivity.
Qed.

(** X14.  The loop of the active code reads only the first [n_node]
    values: if [f] returns further entries after the values at the nodes,
    the estimate is unchanged and no exception is raised. *)
Theorem extra_values_ignored (g : Qc -> Qc) (extra : list Qc) (a b : Qc)
    (n_node : Z) (log : list event) :
  Z.odd n_node = true -> (3 <= n_node)%Z ->
  exists s : Qc,
    fst (approx_sum (ufunc g) a b n_node log) = inr s
    /\ fst (approx_sum (fun xs => (ufunc g xs ++ extra)%list) a b n_node log)
       = inr s.
Proof.
  intros Hodd Hge. exists (simpson_formula g a b n_node).
  rewrite !approx_sum_run by assumption. cbn [fst].
  rewrite loop_form_app; try assumption.
  - rewrite loop_form_formula by assumption. split; reflexivity.
  - unfold ufunc. rewrite length_map. apply nodes_length. lia.
Qed.

Lemma extra_values_ignored_witness :
  Z.odd 3 = true /\ (3 <= 3)%Z
  /\ exists s : Qc,
    fst (approx_sum (ufunc cube) 0 1 3 nil) = inr s
    /\ fst (approx_sum (fun xs => (ufunc cube xs ++ 1 :: 1 :: nil)%list)
              0 1 3 nil)
       = inr s.
Proof.
  split; [reflexivity|]. split; [lia|].
  apply (extra_values_ignored cube (1 :: 1 :: nil) 0 1 3 nil);
    [reflexivity | lia].
Defined.

(** ** Concrete runs *)

(** The report of [approx] on [x^3] over [[0, 1]] with 5 nodes and the
    trapezoid as reference, at the default precision. *)
Example report_example :
  exists nodes : list Qc,
    approx quad_trapezoid (ufunc cube) 0 1 5 10 nil
    = (inr tt,
       EvLinspace 0 1 5 :: EvCall nodes :: EvQuad 0 1
       :: EvPrint "Python calculated:  0.5000000000"
       :: EvPrint "We calculated:      0.2500000000"
       :: EvPrint "Difference is       0.2500000000" :: nil).
Proof.
  exists (map (node 0 1 5) (range 5)).
  rewrite (approx_run quad_trapezoid (ufunc cube) 0 1 5 10 nil
             (simpson_formula cube 0 1 5));
    [| reflexivity | lia | lia | apply loop_form_formula; [reflexivity | lia]].
  cbn [app]. repeat f_equal; vm_compute; reflexivity.
Qed.

(** [renders] tells a numeral without its sign from a rendering: ["0.25"]
    does not render [-1/4]. *)
Example renders_rejects_dropped_sign :
  ~ renders "0.25" (- (Z2Qc 1 / Z2Qc 4)) 2.
Proof.
  intros (v & Hread & Hclose & _).
  vm_compute in Hread. injection Hread as <-.
  vm_compute in Hclose. apply Hclose. reflexivity.
Qed.
